(** * vc-render signalling server: rooms, relay and teardown

    A shallow embedding of [src/server.js], the WebSocket rendezvous server
    that groups connections into two-party rooms and relays WebRTC
    negotiation messages between the two members of a room.

    Conventions of the embedding.
    - A connection object [ws] is named by its [ws.id].  The source assigns
      [ws.id = uuidv4()] once, at connect time, and never changes it, so the
      identifier and the object identity tested by [ws === room.host] name
      the same thing; both are a [ConnId] here.
    - The mutable fields of a connection ([roomCode], [role], [readyState])
      live in a store indexed by [ConnId], because rooms hold references to
      connection objects and read those fields through the reference.
    - [rooms] is the process-wide [Map] from room code to room object.
    - Every [send] and every [rooms.set] / [rooms.delete] is appended to a
      trace, in program order, so that the order of notifications and
      registry updates can be stated.  Console logging is left out.
    - [Math.random().toString(36)] is an input: the handler of [create-room]
      receives the list of strings that successive calls produce. *)

From Stdlib Require Import String Ascii.
From stdpp Require Import base option list gmap sets strings.

Local Open Scope string_scope.

(** ** JSON values, as produced by [JSON.parse] *)

#[warnings="-register-all"] Inductive json : Type :=
  | JNull
  | JBool (b : bool)
  | JNum (repr : string)   (* a number, by its canonical decimal text *)
  | JStr (s : string)
  | JArr (items : list json)
  | JObj (props : list (string * json)).

(** Own properties of an object, in enumeration order. *)
Fixpoint getProp (k : string) (props : list (string * json)) : option json :=
  match props with
  | [] => None
  | (k', v) :: rest => if decide (k' = k) then Some v else getProp k rest
  end.

(** [obj.k = v]: overwrite in place when [k] is present, append otherwise. *)
Fixpoint setProp (k : string) (v : json) (props : list (string * json))
  : list (string * json) :=
  match props with
  | [] => [(k, v)]
  | (k', v') :: rest =>
      if decide (k' = k) then (k, v) :: rest else (k', v') :: setProp k v rest
  end.

(** [message.k] for a non-null JSON value: [None] is [undefined].  Numbers,
    booleans, strings and arrays parsed from JSON have no property with any
    of the names this program reads. *)
Definition member (k : string) (message : json) : option json :=
  match message with
  | JObj props => getProp k props
  | _ => None
  end.

(** [message.k = v] followed by [JSON.stringify(message)]: only an object
    keeps the new property in its serialisation. *)
Definition assign (k : string) (v : json) (message : json) : json :=
  match message with
  | JObj props => JObj (setProp k v props)
  | _ => message
  end.

(** ** Connections and rooms *)

Definition ConnId := nat.

Inductive Role := RHost | RPeer.

Inductive ReadyState := CONNECTING | OPEN | CLOSING | CLOSED.

#[global] Instance Role_eq_dec : EqDecision Role.
Proof. solve_decision. Defined.

#[global] Instance ReadyState_eq_dec : EqDecision ReadyState.
Proof. solve_decision. Defined.

Record WebSocket := {
  roomCode : option string;    (* null or a room code *)
  role : option Role;          (* null, 'host' or 'peer' *)
  readyState : ReadyState
}.

Record Room := {
  host : ConnId;
  peer : option ConnId;
  users : gset ConnId
}.

Inductive Effect :=
  | Send (to : ConnId) (msg : json)
  | RoomsSet (code : string)
  | RoomsDelete (code : string).

Record Server := {
  rooms : gmap string Room;
  sockets : gmap ConnId WebSocket;
  trace : list Effect
}.

(** The object built by the ['connection'] handler. *)
Definition newSocket : WebSocket :=
  {| roomCode := None; role := None; readyState := OPEN |}.

Definition init : Server :=
  {| rooms := ∅; sockets := ∅; trace := [] |}.

Definition socket (st : Server) (ws : ConnId) : WebSocket :=
  default newSocket (sockets st !! ws).

Definition isOpen (st : Server) (ws : ConnId) : bool :=
  bool_decide (readyState (socket st ws) = OPEN).

(** *** Primitive updates *)

Definition send (to : ConnId) (msg : json) (st : Server) : Server :=
  {| rooms := rooms st; sockets := sockets st;
     trace := trace st ++ [Send to msg] |}.

(** In-place mutation of the room object stored under [c]. *)
Definition updateRoom (c : string) (room : Room) (st : Server) : Server :=
  {| rooms := <[c := room]> (rooms st); sockets := sockets st;
     trace := trace st |}.

Definition roomsSet (c : string) (room : Room) (st : Server) : Server :=
  {| rooms := <[c := room]> (rooms st); sockets := sockets st;
     trace := trace st ++ [RoomsSet c] |}.

Definition roomsDelete (c : string) (st : Server) : Server :=
  {| rooms := delete c (rooms st); sockets := sockets st;
     trace := trace st ++ [RoomsDelete c] |}.

(** [ws.roomCode = c; ws.role = r]. *)
Definition setAffiliation (ws : ConnId) (c : option string) (r : option Role)
    (st : Server) : Server :=
  {| rooms := rooms st;
     sockets := <[ws := {| roomCode := c; role := r;
                           readyState := readyState (socket st ws) |}]>
                 (sockets st);
     trace := trace st |}.

Definition setReadyState (ws : ConnId) (s : ReadyState) (st : Server) : Server :=
  {| rooms := rooms st;
     sockets := <[ws := {| roomCode := roomCode (socket st ws);
                           role := role (socket st ws);
                           readyState := s |}]> (sockets st);
     trace := trace st |}.

(** ** Room codes *)

Definition upper_ascii (a : ascii) : ascii :=
  let n := nat_of_ascii a in
  if (97 <=? n)%nat && (n <=? 122)%nat then ascii_of_nat (n - 32) else a.

(** [String.prototype.toUpperCase], exact on ASCII text, which is all that
    [toString(36)] produces. *)
Fixpoint toUpperCase (s : string) : string :=
  match s with
  | EmptyString => EmptyString
  | String a s' => String (upper_ascii a) (toUpperCase s')
  end.

(** [generateRoomCode], applied to the text [r] of
    [Math.random().toString(36)]: [r.substring(2, 8).toUpperCase()]. *)
Definition generateRoomCode (r : string) : string :=
  toUpperCase (substring 2 6 r).

(** The [do ... while (rooms.has(roomCode))] loop over the successive draws
    [rands]; [None] when every draw supplied collides, that is, the loop is
    still running. *)
Fixpoint allocate (rands : list string) (rs : gmap string Room) : option string :=
  match rands with
  | [] => None
  | r :: rest =>
      let roomCode := generateRoomCode r in
      match rs !! roomCode with
      | Some _ => allocate rest rs
      | None => Some roomCode
      end
  end.

(** ** Outbound messages *)

Definition roleJson (r : option Role) : json :=
  match r with
  | None => JNull
  | Some RHost => JStr "host"
  | Some RPeer => JStr "peer"
  end.

Definition roomCreated (c : string) : json :=
  JObj [("type", JStr "room-created"); ("roomCode", JStr c);
        ("role", JStr "host")].

Definition errorMsg (m : string) : json :=
  JObj [("type", JStr "error"); ("message", JStr m)].

Definition roomJoined (c : string) : json :=
  JObj [("type", JStr "room-joined"); ("roomCode", JStr c);
        ("role", JStr "peer")].

Definition peerJoined : json :=
  JObj [("type", JStr "peer-joined"); ("role", JStr "host")].

Definition peerLeft (r : option Role) : json :=
  JObj [("type", JStr "peer-left"); ("role", roleJson r)].

Definition hostLeft : json :=
  JObj [("type", JStr "host-left");
        ("message", JStr "Host has left the room")].

(** ** Handlers *)

Definition handleCreateRoom (ws : ConnId) (rands : list string) (st : Server)
  : option Server :=
  match allocate rands (rooms st) with
  | None => None
  | Some c =>
      let st1 := roomsSet c {| host := ws; peer := None; users := {[ws]} |} st in
      let st2 := setAffiliation ws (Some c) (Some RHost) st1 in
      Some (send ws (roomCreated c) st2)
  end.

(** [rooms.get(roomCode)] for the value found in [message.roomCode]: the keys
    are strings, so only a string can be found. *)
Definition roomsGet (st : Server) (v : option json) : option (string * Room) :=
  match v with
  | Some (JStr c) =>
      match rooms st !! c with
      | Some room => Some (c, room)
      | None => None
      end
  | _ => None
  end.

Definition handleJoinRoom (ws : ConnId) (v : option json) (st : Server) : Server :=
  match roomsGet st v with
  | None => send ws (errorMsg "Room not found") st
  | Some (c, room) =>
      match peer room with
      | Some _ => send ws (errorMsg "Room is full") st
      | None =>
          let st1 := updateRoom c {| host := host room; peer := Some ws;
                                     users := {[ws]} ∪ users room |} st in
          let st2 := setAffiliation ws (Some c) (Some RPeer) st1 in
          let st3 := send ws (roomJoined c) st2 in
          if isOpen st3 (host room) then send (host room) peerJoined st3
          else st3
      end
  end.

Definition forwardToPeer (ws : ConnId) (message : json) (st : Server) : Server :=
  match roomCode (socket st ws) with
  | None => st
  | Some c =>
      match rooms st !! c with
      | None => st
      | Some room =>
          let target := if decide (ws = host room) then peer room
                        else Some (host room) in
          match target with
          | Some t =>
              if isOpen st t
              then send t (assign "senderRole" (roleJson (role (socket st ws)))
                             message) st
              else st
          | None => st
          end
      end
  end.

Definition handleLeaveRoom (ws : ConnId) (st : Server) : Server :=
  match roomCode (socket st ws) with
  | None => st
  | Some c =>
      if decide (c = "") then st else
      match rooms st !! c with
      | None => st
      | Some room =>
          let room1 := {| host := host room; peer := peer room;
                          users := users room ∖ {[ws]} |} in
          let st1 := updateRoom c room1 st in
          let otherPeer := if decide (ws = host room) then peer room
                           else Some (host room) in
          let st2 :=
            match otherPeer with
            | Some o =>
                if isOpen st1 o
                then send o (peerLeft (role (socket st1 o))) st1
                else st1
            | None => st1
            end in
          let st3 :=
            if decide (size (users room1) = 0) then roomsDelete c st2
            else if decide (ws = host room) then
              roomsDelete c
                match peer room with
                | Some p => if isOpen st2 p then send p hostLeft st2 else st2
                | None => st2
                end
            else if decide (peer room = Some ws) then
              updateRoom c {| host := host room; peer := None;
                              users := users room1 |} st2
            else st2 in
          setAffiliation ws None None st3
      end
  end.

(** ** The message and close handlers of a connection *)

(** [message.type] when it is a string. *)
Definition typeTag (message : json) : option string :=
  match member "type" message with
  | Some (JStr t) => Some t
  | _ => None
  end.

(** [data] is [None] when [JSON.parse] throws.  A parsed [null] makes
    [message.type] throw; both exceptions end in the [catch] clause.  The
    [switch] compares [message.type] with each label by strict equality, so
    only a string can select a case. *)
Definition onMessage (ws : ConnId) (data : option json) (rands : list string)
    (st : Server) : option Server :=
  match data with
  | None => Some st
  | Some JNull => Some st
  | Some message =>
      match typeTag message with
      | Some t =>
          if decide (t = "create-room") then handleCreateRoom ws rands st
          else if decide (t = "join-room") then
            Some (handleJoinRoom ws (member "roomCode" message) st)
          else if decide (t = "offer" ∨ t = "answer" ∨ t = "ice-candidate") then
            Some (forwardToPeer ws message st)
          else if decide (t = "leave-room") then Some (handleLeaveRoom ws st)
          else Some st
      | None => Some st
      end
  end.

Definition onClose (ws : ConnId) (st : Server) : Server :=
  handleLeaveRoom ws (setReadyState ws CLOSED st).

(** ** The event loop

    One event is handled to completion before the next one.  A connection
    event allocates a connection object; messages arrive on open
    connections; a close event marks the object closed and runs the leave
    logic.  A step is undefined when the event cannot happen in the given
    state, or when the draws supplied to [create-room] all collide. *)

Inductive Event :=
  | Connection (ws : ConnId)
  | Message (ws : ConnId) (data : option json) (rands : list string)
  | Close (ws : ConnId).

Definition connect (ws : ConnId) (st : Server) : Server :=
  {| rooms := rooms st; sockets := <[ws := newSocket]> (sockets st);
     trace := trace st |}.

Definition step (e : Event) (st : Server) : option Server :=
  match e with
  | Connection ws =>
      match sockets st !! ws with
      | None => Some (connect ws st)
      | Some _ => None
      end
  | Message ws data rands =>
      match sockets st !! ws with
      | Some w =>
          if decide (readyState w = OPEN) then onMessage ws data rands st
          else None
      | None => None
      end
  | Close ws =>
      match sockets st !! ws with
      | Some w =>
          if decide (readyState w = CLOSED) then None
          else Some (onClose ws st)
      | None => None
      end
  end.

Fixpoint run (es : list Event) (st : Server) : option Server :=
  match es with
  | [] => Some st
  | e :: rest =>
      match step e st with
      | Some st' => run rest st'
      | None => None
      end
  end.

(** States reachable from the empty server by events that satisfy [ok] in the
    state in which they are handled. *)
Inductive reachable_by (ok : Server → Event → Prop) : Server → Prop :=
  | reach_init : reachable_by ok init
  | reach_step st e st' :
      reachable_by ok st → ok st e → step e st = Some st' →
      reachable_by ok st'.

Definition reachable : Server → Prop := reachable_by (λ _ _, True).

(** A client that follows the protocol asks to create or join a room only
    while its connection is unaffiliated ([ws.roomCode] is null). *)
Definition requestsRoom (data : option json) : Prop :=
  match data with
  | Some message =>
      typeTag message = Some "create-room" ∨ typeTag message = Some "join-room"
  | None => False
  end.

Definition unaffiliated_requests (st : Server) (e : Event) : Prop :=
  match e with
  | Message ws data _ => requestsRoom data → roomCode (socket st ws) = None
  | _ => True
  end.

(** The two ways a connection leaves: a [leave-room] message, or a close. *)
Inductive departure (ws : ConnId) (st : Server) : Server → Prop :=
  | explicit_leave message rands st' :
      typeTag message = Some "leave-room" →
      onMessage ws (Some message) rands st = Some st' →
      departure ws st st'
  | disconnect : departure ws st (onClose ws st).

(** A room refers to a connection as its host, as its peer, or through its
    member set. *)
Definition refers (room : Room) (ws : ConnId) : Prop :=
  host room = ws ∨ peer room = Some ws ∨ ws ∈ users room.

(** What was sent to [ws], in order. *)
Fixpoint sentTo (ws : ConnId) (t : list Effect) : list json :=
  match t with
  | [] => []
  | Send to msg :: rest =>
      if decide (to = ws) then msg :: sentTo ws rest else sentTo ws rest
  | _ :: rest => sentTo ws rest
  end.

(** ** Sample inputs *)

Definition createRoomMsg : json := JObj [("type", JStr "create-room")].
Definition leaveRoomMsg : json := JObj [("type", JStr "leave-room")].
Definition joinRoomMsg (c : string) : json :=
  JObj [("type", JStr "join-room"); ("roomCode", JStr c)].
Definition offerMsg : json :=
  JObj [("type", JStr "offer"); ("sdp", JStr "v=0")].

(** Connection 0 creates a room, whose code is drawn as ABC123, and
    connection 1 joins it. *)
Definition two_party : list Event :=
  [ Connection 0; Connection 1;
    Message 0 (Some createRoomMsg) ["0.abc123xyz"];
    Message 1 (Some (joinRoomMsg "ABC123")) [] ].

Definition after (es : list Event) : Server :=
  default init (run es init).

(** ** Invariants of the registry *)

(** The host of a room and its peer, if any, are in its member set. *)
Definition members_ok (st : Server) : Prop :=
  ∀ c room, rooms st !! c = Some room →
    host room ∈ users room ∧ ∀ p, peer room = Some p → p ∈ users room.

(** Every code in the registry is in upper-case canonical form. *)
Definition codes_canonical (st : Server) : Prop :=
  ∀ c room, rooms st !! c = Some room → toUpperCase c = c.

(** Every connection a room refers to carries that room's code. *)
Definition affiliation_ok (st : Server) : Prop :=
  ∀ c room ws, rooms st !! c = Some room → refers room ws →
    roomCode (socket st ws) = Some c.

(** Connection 0 has created room ABC123 and waits; connection 1 is not in
    any room. *)
Definition host_waiting : list Event :=
  [ Connection 0; Connection 1;
    Message 0 (Some createRoomMsg) ["0.abc123xyz"] ].

(** Two connections create one room each. *)
Definition two_rooms : list Event :=
  [ Connection 0; Connection 1;
    Message 0 (Some createRoomMsg) ["0.aaaaaa"];
    Message 1 (Some createRoomMsg) ["0.bbbbbb"] ].

(** Connection 0 asks for a room twice. *)
Definition double_create : list Event :=
  [ Connection 0;
    Message 0 (Some createRoomMsg) ["0.aaaaaa"];
    Message 0 (Some createRoomMsg) ["0.bbbbbb"] ].

(** The type tags that select a case of the [switch]. *)
Definition recognized (t : string) : Prop :=
  t = "create-room" ∨ t = "join-room" ∨ t = "offer" ∨ t = "answer" ∨
  t = "ice-candidate" ∨ t = "leave-room".


(** [ok] holds of every event of [es] in the state in which it is handled. *)
Fixpoint all_ok (ok : Server → Event → Prop) (es : list Event) (st : Server)
  : Prop :=
  match es with
  | [] => True
  | e :: rest =>
      ok st e ∧
      match step e st with
      | Some st' => all_ok ok rest st'
      | None => True
      end
  end.


(** [Math.random()] returns 0, whose text in base 36 is the single digit 0:
    the code generated for connection 0 is the empty string.  Connection 1
    joins under that code. *)
Definition empty_code_room : list Event :=
  [ Connection 0; Connection 1;
    Message 0 (Some createRoomMsg) ["0"];
    Message 1 (Some (joinRoomMsg "")) [] ].

(** ** Further invariants *)

(** The member set of a room is its host together with its peer, if any. *)
Definition peerSet (room : Room) : gset ConnId :=
  match peer room with
  | Some p => {[p]}
  | None => ∅
  end.

Definition shape_ok (st : Server) : Prop :=
  ∀ c room, rooms st !! c = Some room →
    users room = {[host room]} ∪ peerSet room.

(** [roomCode] and [role] are null together. *)
Definition fields_paired (st : Server) : Prop :=
  ∀ ws, roomCode (socket st ws) = None ↔ role (socket st ws) = None.

(** The role recorded on a connection is its place in the room. *)
Definition roles_ok (st : Server) : Prop :=
  ∀ c room, rooms st !! c = Some room →
    role (socket st (host room)) = Some RHost ∧
    ∀ p, peer room = Some p → role (socket st p) = Some RPeer.

(** The entries a handler appended to the trace. *)
Definition appended (st st' : Server) : list Effect :=
  drop (length (trace st)) (trace st').

(** Connection 0 has created room ABC123, connection 1 has joined it and has
    closed. *)
Definition peer_gone : list Event := two_party ++ [Close 1].

(** Every message of [l] goes to a connection that is open in [st]. *)
Definition sends_to_open (st : Server) (l : list Effect) : Prop :=
  ∀ to msg, Send to msg ∈ l → readyState (socket st to) = OPEN.

(** The connection an event is about. *)
Definition actor (e : Event) : ConnId :=
  match e with
  | Connection ws | Message ws _ _ | Close ws => ws
  end.

(** The notifications of the leave logic for a room found, as a function of
    which connections are open: first ['peer-left'] to the other member,
    then, when the host leaves a room that still has members, ['host-left']
    to the peer. *)
Definition leaveNotices (st : Server) (ws : ConnId) (room : Room)
  : list Effect :=
  let otherPeer := if decide (ws = host room) then peer room
                   else Some (host room) in
  match otherPeer with
  | Some o => if isOpen st o then [Send o (peerLeft (role (socket st o)))]
              else []
  | None => []
  end ++
  (if decide (size (users room ∖ {[ws]}) = 0) then []
   else if decide (ws = host room) then
     match peer room with
     | Some p => if isOpen st p then [Send p hostLeft] else []
     | None => []
     end
   else []).

(** The registry after the leave logic for a room found under [c]. *)
Definition leaveRooms (rs : gmap string Room) (ws : ConnId) (c : string)
    (room : Room) : gmap string Room :=
  if decide (size (users room ∖ {[ws]}) = 0) then delete c rs
  else if decide (ws = host room) then delete c rs
  else <[c := {| host := host room;
                 peer := if decide (peer room = Some ws) then None
                         else peer room;
                 users := users room ∖ {[ws]} |}]> rs.

(** The host of ABC123 has left while connection 1 was its peer, and
    connection 2 has then created a room for which the same code was
    drawn. *)
Definition code_reused : list Event :=
  two_party ++
  [ Message 0 (Some leaveRoomMsg) []; Connection 2;
    Message 2 (Some createRoomMsg) ["0.abc123"] ].

(** Connections 0 and 1 create one room each, and connection 2 joins the
    first and then the second: it is the peer of both and carries the code
    of the second. *)
Definition double_join : list Event :=
  [ Connection 0; Connection 1; Connection 2;
    Message 0 (Some createRoomMsg) ["0.aaaaaa"];
    Message 1 (Some createRoomMsg) ["0.bbbbbb"];
    Message 2 (Some (joinRoomMsg "AAAAAA")) [];
    Message 2 (Some (joinRoomMsg "BBBBBB")) [] ].

(** * Properties *)

#[local] Set Warnings "-clear-no-such-hyp".

(** ** The connection store *)

Lemma socket_setAffiliation_eq ws c r st :
  socket (setAffiliation ws c r st) ws =
  {| roomCode := c; role := r; readyState := readyState (socket st ws) |}.
Proof. unfold socket at 1. simpl. by rewrite lookup_insert_eq. Qed.

Lemma socket_setAffiliation_ne ws ws' c r st :
  ws' ≠ ws → socket (setAffiliation ws c r st) ws' = socket st ws'.
Proof. intros Hne. unfold socket. simpl. by rewrite lookup_insert_ne. Qed.

Lemma socket_setReadyState_eq ws s st :
  socket (setReadyState ws s st) ws =
  {| roomCode := roomCode (socket st ws); role := role (socket st ws);
     readyState := s |}.
Proof. unfold socket at 1. simpl. by rewrite lookup_insert_eq. Qed.

Lemma socket_setReadyState_ne ws ws' s st :
  ws' ≠ ws → socket (setReadyState ws s st) ws' = socket st ws'.
Proof. intros Hne. unfold socket. simpl. by rewrite lookup_insert_ne. Qed.

Lemma roomCode_setReadyState ws ws' s st :
  roomCode (socket (setReadyState ws s st) ws') = roomCode (socket st ws').
Proof.
  destruct (decide (ws' = ws)) as [->|Hne].
  - by rewrite socket_setReadyState_eq.
  - by rewrite socket_setReadyState_ne.
Qed.

Lemma role_setReadyState ws ws' s st :
  role (socket (setReadyState ws s st) ws') = role (socket st ws').
Proof.
  destruct (decide (ws' = ws)) as [->|Hne].
  - by rewrite socket_setReadyState_eq.
  - by rewrite socket_setReadyState_ne.
Qed.

Lemma isOpen_true st ws : isOpen st ws = true ↔ readyState (socket st ws) = OPEN.
Proof. unfold isOpen. by rewrite bool_decide_eq_true. Qed.


(** ** The leave logic, branch by branch *)

(** The three early exits: nothing is read further and nothing changes. *)
Lemma leave_unaffiliated ws st :
  roomCode (socket st ws) = None → handleLeaveRoom ws st = st.
Proof. intros H. unfold handleLeaveRoom. by rewrite H. Qed.

Lemma leave_empty_code ws st :
  roomCode (socket st ws) = Some "" → handleLeaveRoom ws st = st.
Proof. intros H. unfold handleLeaveRoom. by rewrite H. Qed.

Lemma leave_room_gone ws c st :
  roomCode (socket st ws) = Some c → rooms st !! c = None →
  handleLeaveRoom ws st = st.
Proof.
  intros H1 H2. unfold handleLeaveRoom. rewrite H1, H2.
  by destruct (decide (c = "")).
Qed.

(** Past the exits the affiliation is always reset. *)
Lemma leave_room_found ws c room st :
  roomCode (socket st ws) = Some c → c ≠ "" → rooms st !! c = Some room →
  ∃ st3, handleLeaveRoom ws st = setAffiliation ws None None st3.
Proof.
  intros H1 Hc H2. unfold handleLeaveRoom. rewrite H1, H2.
  destruct (decide (c = "")) as [|_]; [done|]. eauto.
Qed.

(** The host leaves while a distinct peer that is a member is attached and
    open. *)
Lemma leave_host_with_peer ws c room p st :
  roomCode (socket st ws) = Some c → c ≠ "" → rooms st !! c = Some room →
  host room = ws → peer room = Some p → p ≠ ws → p ∈ users room →
  readyState (socket st p) = OPEN →
  handleLeaveRoom ws st =
  setAffiliation ws None None
    (roomsDelete c
       (send p hostLeft
          (send p (peerLeft (role (socket st p)))
             (updateRoom c {| host := host room; peer := peer room;
                              users := users room ∖ {[ws]} |} st)))).
Proof.
  intros H1 Hc H2 Hh Hp Hne Hin Hopen. unfold handleLeaveRoom.
  rewrite H1, H2. destruct (decide (c = "")) as [|_]; [done|].
  rewrite Hp. simpl users.
  destruct (decide (ws = host room)) as [_|]; [|by subst].
  assert (Ho : ∀ st0, sockets st0 = sockets st → isOpen st0 p = true).
  { intros st0 E. apply isOpen_true. unfold socket. by rewrite E. }
  rewrite (Ho (updateRoom _ _ st)) by done.
  destruct (decide (size (users room ∖ {[ws]}) = 0)) as [Hz|_].
  { apply size_empty_iff in Hz. set_solver. }
  rewrite (Ho (send _ _ _)) by done. done.
Qed.

(** The host leaves, whatever the peer: the room is deleted. *)
Lemma leave_host_deletes ws c room st :
  roomCode (socket st ws) = Some c → c ≠ "" → rooms st !! c = Some room →
  host room = ws →
  rooms (handleLeaveRoom ws st) = delete c (rooms st).
Proof.
  intros H1 Hc H2 Hh. unfold handleLeaveRoom.
  rewrite H1, H2. destruct (decide (c = "")) as [|_]; [done|].
  destruct (decide (ws = host room)) as [_|]; [|by subst].
  simpl users.
  repeat (case_match || case_decide); simpl; by rewrite delete_insert_eq.
Qed.

(** The peer leaves while a distinct host that is a member is open. *)
Lemma leave_peer_with_host ws c room st :
  roomCode (socket st ws) = Some c → c ≠ "" → rooms st !! c = Some room →
  peer room = Some ws → host room ≠ ws → host room ∈ users room →
  readyState (socket st (host room)) = OPEN →
  handleLeaveRoom ws st =
  setAffiliation ws None None
    (updateRoom c {| host := host room; peer := None;
                     users := users room ∖ {[ws]} |}
       (send (host room) (peerLeft (role (socket st (host room))))
          (updateRoom c {| host := host room; peer := peer room;
                           users := users room ∖ {[ws]} |} st))).
Proof.
  intros H1 Hc H2 Hp Hne Hin Hopen. unfold handleLeaveRoom.
  rewrite H1, H2. destruct (decide (c = "")) as [|_]; [done|].
  simpl users.
  destruct (decide (ws = host room)) as [|_]; [by subst|].
  assert (Ho : ∀ st0, sockets st0 = sockets st → isOpen st0 (host room) = true).
  { intros st0 E. apply isOpen_true. unfold socket. by rewrite E. }
  rewrite (Ho (updateRoom _ _ st)) by done.
  destruct (decide (size (users room ∖ {[ws]}) = 0)) as [Hz|_].
  { apply size_empty_iff in Hz. set_solver. }
  destruct (decide (peer room = Some ws)) as [_|]; [done|done].
Qed.

(** Only the leaving connection's own record is written. *)
Lemma leave_other_socket ws ws' st :
  ws' ≠ ws → socket (handleLeaveRoom ws st) ws' = socket st ws'.
Proof.
  intros Hne. unfold handleLeaveRoom.
  repeat (case_match || case_decide); try done;
    by rewrite socket_setAffiliation_ne.
Qed.

(** ** Departure *)

Lemma typeTag_leave_dispatch ws message rands st :
  typeTag message = Some "leave-room" →
  onMessage ws (Some message) rands st = Some (handleLeaveRoom ws st).
Proof.
  intros H. unfold onMessage. rewrite H.
  by destruct message.
Qed.

Lemma departure_inv ws st st' :
  departure ws st st' →
  st' = handleLeaveRoom ws st ∨
  st' = handleLeaveRoom ws (setReadyState ws CLOSED st).
Proof.
  intros [message rands st1 Ht Hm|].
  - rewrite (typeTag_leave_dispatch _ _ _ _ Ht) in Hm. left. congruence.
  - by right.
Qed.

(** ** What each handler does to the registry and the store *)

Lemma allocate_Some rands rs c :
  allocate rands rs = Some c →
  rs !! c = None ∧
  ∃ pre r post, rands = (pre ++ r :: post)%list ∧ c = generateRoomCode r ∧
    Forall (λ r', is_Some (rs !! generateRoomCode r')) pre.
Proof.
  induction rands as [|r rest IH]; simpl; [done|].
  destruct (rs !! generateRoomCode r) as [room|] eqn:E.
  - intros H. destruct (IH H) as (Hc & pre & r0 & post & -> & -> & Hpre).
    split; [done|]. exists (r :: pre), r0, post.
    split_and!; [done|done|]. constructor; [by rewrite E|done].
  - intros [= <-]. split; [done|]. by exists [], r, rest.
Qed.

Lemma allocate_total rands rs :
  Exists (λ r, rs !! generateRoomCode r = None) rands →
  is_Some (allocate rands rs).
Proof.
  induction 1 as [r rest H|r rest _ IH]; simpl.
  - rewrite H. eauto.
  - destruct (rs !! generateRoomCode r); eauto.
Qed.

Lemma create_cases ws rands st st' :
  handleCreateRoom ws rands st = Some st' →
  ∃ c, allocate rands (rooms st) = Some c ∧
    rooms st' = <[c := {| host := ws; peer := None; users := {[ws]} |}]> (rooms st) ∧
    sockets st' = <[ws := {| roomCode := Some c; role := Some RHost;
                             readyState := readyState (socket st ws) |}]>
                    (sockets st) ∧
    trace st' = (trace st ++ [RoomsSet c; Send ws (roomCreated c)])%list.
Proof.
  unfold handleCreateRoom. destruct (allocate rands (rooms st)) as [c|]; [|done].
  intros [= <-]. exists c. simpl. split_and!; try done.
  by rewrite <- app_assoc.
Qed.

Lemma join_cases ws v st :
  let st' := handleJoinRoom ws v st in
  (∃ m, st' = send ws (errorMsg m) st) ∨
  ∃ c room, v = Some (JStr c) ∧ rooms st !! c = Some room ∧ peer room = None ∧
    rooms st' = <[c := {| host := host room; peer := Some ws;
                          users := {[ws]} ∪ users room |}]> (rooms st) ∧
    sockets st' = <[ws := {| roomCode := Some c; role := Some RPeer;
                             readyState := readyState (socket st ws) |}]>
                    (sockets st).
Proof.
  unfold handleJoinRoom, roomsGet.
  destruct v as [[| | |c| |]|]; eauto.
  destruct (rooms st !! c) as [room|] eqn:E; eauto.
  destruct (peer room) eqn:Ep; eauto.
  right. exists c, room. split_and!; try done; by case_match.
Qed.

Lemma forward_cases ws message st :
  rooms (forwardToPeer ws message st) = rooms st ∧
  sockets (forwardToPeer ws message st) = sockets st.
Proof. unfold forwardToPeer. by repeat case_match. Qed.

Lemma leave_cases ws st :
  let st' := handleLeaveRoom ws st in
  st' = st ∨
  ∃ c room, roomCode (socket st ws) = Some c ∧ c ≠ "" ∧
    rooms st !! c = Some room ∧
    sockets st' = <[ws := {| roomCode := None; role := None;
                             readyState := readyState (socket st ws) |}]>
                    (sockets st) ∧
    (rooms st' = delete c (rooms st) ∨
     host room ≠ ws ∧
     rooms st' = <[c := {| host := host room;
                           peer := if decide (peer room = Some ws) then None
                                   else peer room;
                           users := users room ∖ {[ws]} |}]> (rooms st)).
Proof.
  unfold handleLeaveRoom.
  destruct (roomCode (socket st ws)) as [c|] eqn:Hc; [|by left].
  destruct (decide (c = "")) as [|Hne]; [by left|].
  destruct (rooms st !! c) as [room|] eqn:Hr; [|by left].
  right. exists c, room. split_and!; try done.
  - repeat (case_match || case_decide); done.
  - simpl users.
    set (st2 := match (if decide (ws = host room) then peer room
                       else Some (host room)) with
                | Some o => _ | None => _ end).
    assert (E2 : rooms st2 = <[c := {| host := host room; peer := peer room;
                   users := users room ∖ {[ws]} |}]> (rooms st)).
    { unfold st2. by repeat case_match. }
    clearbody st2.
    destruct (decide (size (users room ∖ {[ws]}) = 0)).
    { left. simpl. by rewrite E2, delete_insert_eq. }
    destruct (decide (ws = host room)) as [->|Hh].
    { left. simpl. repeat case_match; simpl; by rewrite E2, delete_insert_eq. }
    right. split; [done|].
    destruct (decide (peer room = Some ws)) as [Hp|Hp]; simpl.
    + by rewrite E2, insert_insert_eq.
    + by rewrite E2.
Qed.

(** ** Invariants are proved handler by handler *)

Section Invariant.
Variable ok : Server → Event → Prop.
Variable I : Server → Prop.

Hypothesis I_init : I init.
Hypothesis I_connect : ∀ ws st,
  sockets st !! ws = None → I st → I (connect ws st).
Hypothesis I_ready : ∀ ws s st, I st → I (setReadyState ws s st).
Hypothesis I_create : ∀ ws message rands st st',
  I st → ok st (Message ws (Some message) rands) →
  typeTag message = Some "create-room" →
  handleCreateRoom ws rands st = Some st' → I st'.
Hypothesis I_join : ∀ ws message rands st,
  I st → ok st (Message ws (Some message) rands) →
  typeTag message = Some "join-room" →
  I (handleJoinRoom ws (member "roomCode" message) st).
Hypothesis I_forward : ∀ ws message st, I st → I (forwardToPeer ws message st).
Hypothesis I_leave : ∀ ws st, I st → I (handleLeaveRoom ws st).

Lemma onMessage_preserves ws data rands st st' :
  I st → ok st (Message ws data rands) →
  onMessage ws data rands st = Some st' → I st'.
Proof using All.
  intros HI Hok. unfold onMessage.
  destruct data as [message|]; [|by intros [= <-]].
  destruct (typeTag message) as [t|] eqn:Ht;
    [|destruct message; by intros [= <-]].
  destruct message; try discriminate Ht.
  repeat case_decide; subst; try (intros [= <-]); eauto.
  by apply (I_join ws (JObj props) rands).
Qed.

Lemma step_preserves e st st' :
  I st → ok st e → step e st = Some st' → I st'.
Proof using All.
  intros HI Hok. destruct e as [ws|ws data rands|ws]; simpl.
  - case_match; [done|]. intros [= <-]. eauto.
  - case_match; [|done]. case_decide; [|done].
    by apply onMessage_preserves.
  - case_match; [|done]. case_decide; [done|]. intros [= <-].
    unfold onClose. eauto.
Qed.

Lemma invariant_reachable_by st : reachable_by ok st → I st.
Proof using All.
  induction 1 as [|st e st' _ IH Hok Hstep]; [done|].
  by eapply step_preserves.
Qed.
End Invariant.

Lemma reachable_by_weaken ok st : reachable_by ok st → reachable st.
Proof.
  induction 1 as [|st e st' _ IH _ Hstep]; [constructor|].
  by eapply reach_step.
Qed.

Lemma run_reachable es st st' :
  reachable st → run es st = Some st' → reachable st'.
Proof.
  revert st. induction es as [|e es IH]; simpl; intros st Hst.
  - by intros [= <-].
  - destruct (step e st) as [st1|] eqn:E; [|done].
    apply IH. by eapply reach_step.
Qed.

(** ** Members of a room *)

Lemma members_ok_reachable st : reachable st → members_ok st.
Proof.
  apply invariant_reachable_by; unfold members_ok.
  - intros c room. simpl. by rewrite lookup_empty.
  - done.
  - done.
  - intros ws _ rands st0 st' HI _ _ Hc c room.
    destruct (create_cases _ _ _ _ Hc) as (c0 & _ & -> & _).
    rewrite lookup_insert_Some. intros [[_ <-]|[_ H]]; [|by eapply HI].
    simpl. set_solver.
  - intros ws message _ st0 HI _ _ c room.
    destruct (join_cases ws (member "roomCode" message) st0)
      as [[m ->]|(c0 & room0 & _ & Hr & Hp & -> & _)]; [by apply HI|].
    rewrite lookup_insert_Some. intros [[_ <-]|[_ H]]; [|by eapply HI].
    simpl. destruct (HI _ _ Hr) as [Hh _]. split; [set_solver|].
    intros p [= <-]. set_solver.
  - intros ws message st0 HI c room.
    destruct (forward_cases ws message st0) as [-> _]. apply HI.
  - intros ws st0 HI c room.
    destruct (leave_cases ws st0)
      as [->|(c0 & room0 & _ & _ & Hr & _ & [->|[Hne ->]])]; [by apply HI| |].
    + rewrite lookup_delete_Some. intros [_ H]. by eapply HI.
    + rewrite lookup_insert_Some. intros [[_ <-]|[_ H]]; [|by eapply HI].
      simpl. destruct (HI _ _ Hr) as [Hh Hp]. split; [set_solver|].
      intros p. case_decide as Hpw; [done|]. intros Hpp.
      specialize (Hp _ Hpp). assert (p ≠ ws) by congruence. set_solver.
Qed.

(** ** Canonical form of codes *)

Lemma upper_ascii_idem a : upper_ascii (upper_ascii a) = upper_ascii a.
Proof. by destruct a as [[] [] [] [] [] [] [] []]. Qed.

Lemma toUpperCase_idem s : toUpperCase (toUpperCase s) = toUpperCase s.
Proof.
  induction s as [|a s IH]; simpl; [done|]. by rewrite upper_ascii_idem, IH.
Qed.

Lemma generateRoomCode_canonical r :
  toUpperCase (generateRoomCode r) = generateRoomCode r.
Proof. apply toUpperCase_idem. Qed.

Lemma codes_canonical_reachable st : reachable st → codes_canonical st.
Proof.
  apply invariant_reachable_by; unfold codes_canonical.
  - intros c room. simpl. by rewrite lookup_empty.
  - done.
  - done.
  - intros ws _ rands st0 st' HI _ _ Hc c room.
    destruct (create_cases _ _ _ _ Hc) as (c0 & Ha & -> & _).
    rewrite lookup_insert_Some. intros [[<- _]|[_ H]]; [|by eapply HI].
    destruct (allocate_Some _ _ _ Ha) as (_ & _ & r & _ & _ & -> & _).
    apply generateRoomCode_canonical.
  - intros ws message _ st0 HI _ _ c room.
    destruct (join_cases ws (member "roomCode" message) st0)
      as [[m ->]|(c0 & room0 & _ & Hr & _ & -> & _)]; [by apply HI|].
    rewrite lookup_insert_Some. intros [[<- _]|[_ H]]; by eapply HI.
  - intros ws message st0 HI c room.
    destruct (forward_cases ws message st0) as [-> _]. apply HI.
  - intros ws st0 HI c room.
    destruct (leave_cases ws st0)
      as [->|(c0 & room0 & _ & _ & Hr & _ & [->|[Hne ->]])]; [by apply HI| |].
    + rewrite lookup_delete_Some. intros [_ H]. by eapply HI.
    + rewrite lookup_insert_Some. intros [[<- _]|[_ H]]; by eapply HI.
Qed.

(** ** Affiliation under the protocol *)

Lemma affiliation_ok_reachable st :
  reachable_by unaffiliated_requests st → affiliation_ok st.
Proof.
  apply invariant_reachable_by; unfold affiliation_ok.
  - intros c room ws. simpl. by rewrite lookup_empty.
  - intros ws st0 Hfresh HI c room ws' Hr Href. simpl in Hr.
    specialize (HI _ _ _ Hr Href). unfold socket in *. simpl.
    destruct (decide (ws' = ws)) as [->|Hne].
    + rewrite Hfresh in HI. done.
    + by rewrite lookup_insert_ne.
  - intros ws s st0 HI c room ws' Hr Href.
    rewrite roomCode_setReadyState. by eapply HI.
  - intros ws message rands st0 st' HI Hok Ht Hc c room ws'.
    assert (Hun : roomCode (socket st0 ws) = None).
    { apply Hok. simpl. by left. }
    destruct (create_cases _ _ _ _ Hc) as (c0 & Ha & Hrooms & Hs & _).
    rewrite Hrooms, lookup_insert_Some. unfold socket at 1. rewrite Hs.
    intros [[<- <-]|[Hne H]] Href.
    + assert (ws' = ws) as -> by (unfold refers in Href; simpl in Href; set_solver).
      by rewrite lookup_insert_eq.
    + specialize (HI _ _ _ H Href).
      rewrite lookup_insert_ne; [done|congruence].
  - intros ws message rands st0 HI Hok Ht c room ws'.
    assert (Hun : roomCode (socket st0 ws) = None).
    { apply Hok. simpl. by right. }
    destruct (join_cases ws (member "roomCode" message) st0)
      as [[m ->]|(c0 & room0 & _ & Hr & Hp & Hrooms & Hs)]; [by apply HI|].
    rewrite Hrooms, lookup_insert_Some. unfold socket at 1. rewrite Hs.
    intros [[<- <-]|[Hne H]] Href.
    + destruct (decide (ws' = ws)) as [->|Hw]; [by rewrite lookup_insert_eq|].
      rewrite lookup_insert_ne by done. apply (HI c0 room0); [done|].
      unfold refers in *. simpl in Href. rewrite Hp. set_solver.
    + specialize (HI _ _ _ H Href).
      rewrite lookup_insert_ne; [done|congruence].
  - intros ws message st0 HI c room ws'.
    destruct (forward_cases ws message st0) as [Hr Hs].
    unfold socket. rewrite Hr, Hs. apply HI.
  - intros ws st0 HI c room ws'.
    destruct (leave_cases ws st0)
      as [->|(c0 & room0 & Hc & _ & Hr & Hs & Hrooms)]; [by apply HI|].
    unfold socket at 1. rewrite Hs.
    assert (Hother : ∀ c1 room1, rooms st0 !! c1 = Some room1 → c1 ≠ c0 →
              refers room1 ws' → ws' ≠ ws).
    { intros c1 room1 H1 Hne Href ->.
      specialize (HI _ _ _ H1 Href). congruence. }
    destruct Hrooms as [->|[Hne ->]].
    + rewrite lookup_delete_Some. intros [Hc0 H] Href.
      rewrite lookup_insert_ne by (symmetry; by eapply Hother).
      by eapply HI.
    + rewrite lookup_insert_Some. intros [[<- <-]|[Hc0 H]] Href.
      * assert (ws' ≠ ws ∧ refers room0 ws') as [Hw Href0].
        { unfold refers in *. simpl in Href. case_decide; set_solver. }
        rewrite lookup_insert_ne by done. by eapply HI.
      * rewrite lookup_insert_ne by (symmetry; by eapply Hother).
        by eapply HI.
Qed.

(** ** Sample runs *)

Lemma two_party_runs : run two_party init = Some (after two_party).
Proof. vm_compute. reflexivity. Qed.

Lemma two_party_reachable : reachable (after two_party).
Proof. eapply run_reachable; [constructor|apply two_party_runs]. Qed.

Lemma leave_message_departs ws st :
  departure ws st (handleLeaveRoom ws st).
Proof.
  apply (explicit_leave ws st leaveRoomMsg []); [done|].
  by apply typeTag_leave_dispatch.
Qed.

(** ** Host departure *)

(** C1 (amended).  When the host of a room leaves, by a [leave-room] message
    or by closing, while a distinct open peer is attached, the room is
    removed from the registry and the departure produces exactly this, in
    this order: a ['peer-left'] notification to the peer carrying the peer's
    own role, then one ['host-left'] notification to the peer, then the
    deletion of the room.  Nothing else is sent.  The leaving connection is
    the one whose non-empty [roomCode] names the room. *)
Theorem host_departure_notifies_then_deletes st ws c room p st' :
  reachable st →
  roomCode (socket st ws) = Some c → c ≠ "" →
  rooms st !! c = Some room →
  host room = ws → peer room = Some p → p ≠ ws →
  readyState (socket st p) = OPEN →
  departure ws st st' →
  rooms st' = delete c (rooms st) ∧
  trace st' = (trace st ++ [Send p (peerLeft (role (socket st p)));
                            Send p hostLeft; RoomsDelete c])%list ∧
  sentTo p (drop (length (trace st)) (trace st')) =
    [peerLeft (role (socket st p)); hostLeft].
Proof.
  intros Hreach Hc Hne Hr Hh Hp Hpw Hopen Hdep.
  destruct (members_ok_reachable _ Hreach _ _ Hr) as [_ Hin].
  specialize (Hin _ Hp).
  assert (E : ∃ st0, rooms st0 = rooms st ∧ trace st0 = trace st ∧
                     socket st0 p = socket st p ∧
                     roomCode (socket st0 ws) = Some c ∧
                     st' = handleLeaveRoom ws st0).
  { destruct (departure_inv _ _ _ Hdep) as [->| ->].
    - by exists st.
    - exists (setReadyState ws CLOSED st). split_and!; try done.
      + by apply socket_setReadyState_ne.
      + by rewrite roomCode_setReadyState. }
  destruct E as (st0 & Er & Et & Es & Ec & ->).
  rewrite (leave_host_with_peer ws c room p st0); try done;
    [|by rewrite Er|by rewrite Es].
  simpl. rewrite Er, Et, Es, delete_insert_eq. split_and!; [done| |].
  - by rewrite <- !app_assoc.
  - rewrite <- !app_assoc. rewrite drop_app_length. simpl.
    by rewrite !decide_True.
Qed.

Lemma host_departure_witness :
  rooms (handleLeaveRoom 0 (after two_party)) =
    delete "ABC123" (rooms (after two_party)) ∧
  trace (handleLeaveRoom 0 (after two_party)) =
    (trace (after two_party) ++
       [Send 1 (peerLeft (role (socket (after two_party) 1)));
        Send 1 hostLeft; RoomsDelete "ABC123"])%list ∧
  sentTo 1 (drop (length (trace (after two_party)))
              (trace (handleLeaveRoom 0 (after two_party)))) =
    [peerLeft (role (socket (after two_party) 1)); hostLeft].
Proof.
  apply (host_departure_notifies_then_deletes (after two_party) 0 "ABC123"
           {| host := 0; peer := Some 1; users := {[0; 1]} |} 1).
  - apply two_party_reachable.
  - reflexivity.
  - discriminate.
  - vm_compute. reflexivity.
  - reflexivity.
  - reflexivity.
  - discriminate.
  - reflexivity.
  - apply leave_message_departs.
Defined.

(** C1 as stated fails: after connection 0 created room ABC123 and
    connection 1 joined it, the departure of 0 sends the peer a
    ['peer-left'] notification first and ['host-left'] second, so the
    ['host-left'] is neither the first nor the only notification that the
    peer receives. *)
Lemma host_left_is_not_the_only_notification :
  let st := after two_party in
  let st' := handleLeaveRoom 0 st in
  run two_party init = Some st ∧
  rooms st !! "ABC123" = Some {| host := 0; peer := Some 1; users := {[0; 1]} |} ∧
  readyState (socket st 1) = OPEN ∧
  onMessage 0 (Some leaveRoomMsg) [] st = Some st' ∧
  sentTo 1 (drop (length (trace st)) (trace st')) =
    [peerLeft (Some RPeer); hostLeft] ∧
  sentTo 1 (drop (length (trace st)) (trace st')) ≠ [hostLeft].
Proof. vm_compute. split_and!; try reflexivity. discriminate. Qed.

(** The state in which a departure runs its leave logic. *)
Lemma departure_from ws st st' :
  departure ws st st' →
  ∃ st0, st' = handleLeaveRoom ws st0 ∧
    rooms st0 = rooms st ∧ trace st0 = trace st ∧
    (∀ ws', roomCode (socket st0 ws') = roomCode (socket st ws')) ∧
    (∀ ws', role (socket st0 ws') = role (socket st ws')) ∧
    (∀ ws', ws' ≠ ws → socket st0 ws' = socket st ws').
Proof.
  intros Hdep. destruct (departure_inv _ _ _ Hdep) as [->| ->].
  - by exists st.
  - exists (setReadyState ws CLOSED st). split_and!; try done.
    + intros ws'. apply roomCode_setReadyState.
    + intros ws'. apply role_setReadyState.
    + intros ws' Hne. by apply socket_setReadyState_ne.
Qed.

(** ** Clearing the affiliation *)

(** C4 (amended).  When a connection whose non-empty [roomCode] names a room
    that is in the registry leaves, by a [leave-room] message or by closing,
    its [roomCode] and [role] are both null afterwards, whichever branch of
    the leave logic ran. *)
Theorem leave_clears_affiliation st ws c room st' :
  roomCode (socket st ws) = Some c → c ≠ "" →
  rooms st !! c = Some room →
  departure ws st st' →
  roomCode (socket st' ws) = None ∧ role (socket st' ws) = None.
Proof.
  intros Hc Hne Hr Hdep.
  destruct (departure_from _ _ _ Hdep) as (st0 & -> & Er & _ & Ec & _ & _).
  destruct (leave_room_found ws c room st0) as [st3 ->];
    [by rewrite Ec|done|by rewrite Er|].
  by rewrite socket_setAffiliation_eq.
Qed.

Lemma leave_clears_affiliation_witness :
  roomCode (socket (onClose 1 (after two_party)) 1) = None ∧
  role (socket (onClose 1 (after two_party)) 1) = None.
Proof.
  apply (leave_clears_affiliation (after two_party) 1 "ABC123"
           {| host := 0; peer := Some 1; users := {[0; 1]} |}
           (onClose 1 (after two_party))).
  - reflexivity.
  - discriminate.
  - vm_compute. reflexivity.
  - apply disconnect.
Defined.

(** C4 as stated fails: once the host of ABC123 has left, the room is gone
    but connection 1 still carries its code; the leave of connection 1 then
    returns at the missing room and clears neither field. *)
Lemma leave_after_teardown_keeps_affiliation :
  let st := after (two_party ++ [Message 0 (Some leaveRoomMsg) []]) in
  let st' := handleLeaveRoom 1 st in
  run (two_party ++ [Message 0 (Some leaveRoomMsg) []]) init = Some st ∧
  roomCode (socket st 1) = Some "ABC123" ∧
  onMessage 1 (Some leaveRoomMsg) [] st = Some st' ∧
  roomCode (socket st' 1) = Some "ABC123" ∧
  role (socket st' 1) = Some RPeer.
Proof. vm_compute. split_and!; reflexivity. Qed.

(** ** Peer departure *)

(** C5 (amended).  In a reachable state, when the peer of a room, a
    connection other than the host whose non-empty [roomCode] names the
    room, leaves, by a [leave-room] message or by closing, while the host is
    open, the room stays in the registry with its [peer] field null and the
    leaving connection removed from its member set, and the departure sends
    exactly one message: a ['peer-left'] notification to the host. *)
Theorem peer_departure_keeps_room st ws c room st' :
  reachable st →
  roomCode (socket st ws) = Some c → c ≠ "" →
  rooms st !! c = Some room →
  peer room = Some ws → host room ≠ ws →
  readyState (socket st (host room)) = OPEN →
  departure ws st st' →
  rooms st' = <[c := {| host := host room; peer := None;
                        users := users room ∖ {[ws]} |}]> (rooms st) ∧
  trace st' = (trace st ++
                 [Send (host room)
                    (peerLeft (role (socket st (host room))))])%list ∧
  sentTo (host room) (drop (length (trace st)) (trace st')) =
    [peerLeft (role (socket st (host room)))].
Proof.
  intros Hreach Hc Hne Hr Hp Hh Hopen Hdep.
  destruct (members_ok_reachable _ Hreach _ _ Hr) as [Hin _].
  destruct (departure_from _ _ _ Hdep) as (st0 & -> & Er & Et & Ec & _ & Es).
  rewrite (leave_peer_with_host ws c room st0); try done;
    [|by rewrite Ec|by rewrite Er|by rewrite Es].
  simpl. rewrite Er, Et, Es, insert_insert_eq by done.
  split_and!; [done|done|].
  rewrite drop_app_length. simpl. by rewrite decide_True.
Qed.

Lemma peer_departure_witness :
  rooms (onClose 1 (after two_party)) =
    <["ABC123" := {| host := 0; peer := None;
                     users := {[0; 1]} ∖ {[1]} |}]> (rooms (after two_party)) ∧
  trace (onClose 1 (after two_party)) =
    (trace (after two_party) ++
       [Send 0 (peerLeft (role (socket (after two_party) 0)))])%list ∧
  sentTo 0 (drop (length (trace (after two_party)))
              (trace (onClose 1 (after two_party)))) =
    [peerLeft (role (socket (after two_party) 0))].
Proof.
  refine (peer_departure_keeps_room (after two_party) 1 "ABC123"
            {| host := 0; peer := Some 1; users := {[0; 1]} |}
            (onClose 1 (after two_party)) _ _ _ _ _ _ _ _).
  - apply two_party_reachable.
  - reflexivity.
  - discriminate.
  - vm_compute. reflexivity.
  - reflexivity.
  - discriminate.
  - reflexivity.
  - apply disconnect.
Defined.

(** C5 as stated fails: connection 2 joined room AAAAAA and then room
    BBBBBB, so it is the peer of AAAAAA but its [roomCode] names BBBBBB.
    When it closes, the leave logic runs on BBBBBB only: room AAAAAA keeps
    connection 2 as its peer, and its host, connection 0, which is open, is
    sent nothing. *)
Lemma peer_of_two_rooms_leaves_only_one :
  let st := after double_join in
  let st' := onClose 2 st in
  let room := {| host := 0; peer := Some 2; users := {[0; 2]} |} in
  run double_join init = Some st ∧
  rooms st !! "AAAAAA" = Some room ∧
  readyState (socket st 0) = OPEN ∧
  roomCode (socket st 2) = Some "BBBBBB" ∧
  step (Close 2) st = Some st' ∧
  rooms st' !! "AAAAAA" = Some room ∧
  sentTo 0 (drop (length (trace st)) (trace st')) = [].
Proof. vm_compute. split_and!; reflexivity. Qed.

(** ** The peer of a room that was torn down *)

(** C10 (amended).  When the host of a room, whose non-empty [roomCode]
    names the room, leaves while a different connection [p], which carries
    the room's code in its own [roomCode], is attached as peer, the room is
    deleted and the record of [p] is left as it was: [roomCode] still holds
    the deleted room's code and [role] is unchanged.  A departure of [p]
    while no room is stored under that code, as in the state right after
    the teardown, finds no room, changes neither field and touches neither
    the registry nor the trace.  A relay message from [p], in any state in
    which [p] still carries that code, is routed through whatever room is
    then stored under the code: dropped when there is none, and otherwise
    delivered to the other member of that room. *)
Theorem torn_down_peer_keeps_stale_code st ws c room p st1 :
  roomCode (socket st ws) = Some c → c ≠ "" →
  rooms st !! c = Some room →
  host room = ws → peer room = Some p → p ≠ ws →
  roomCode (socket st p) = Some c →
  departure ws st st1 →
  rooms st1 !! c = None ∧
  socket st1 p = socket st p ∧
  (∀ st2, departure p st1 st2 →
     roomCode (socket st2 p) = Some c ∧
     role (socket st2 p) = role (socket st p) ∧
     rooms st2 = rooms st1 ∧ trace st2 = trace st1) ∧
  (∀ stL st2, roomCode (socket stL p) = Some c → rooms stL !! c = None →
     departure p stL st2 →
     roomCode (socket st2 p) = Some c ∧
     role (socket st2 p) = role (socket stL p) ∧
     rooms st2 = rooms stL ∧ trace st2 = trace stL) ∧
  (∀ st2 message, roomCode (socket st2 p) = Some c →
     rooms st2 !! c = None → forwardToPeer p message st2 = st2) ∧
  (∀ st2 room2 t message, roomCode (socket st2 p) = Some c →
     rooms st2 !! c = Some room2 →
     (if decide (p = host room2) then peer room2 else Some (host room2))
       = Some t →
     readyState (socket st2 t) = OPEN →
     forwardToPeer p message st2 =
       send t (assign "senderRole" (roleJson (role (socket st2 p))) message)
         st2).
Proof.
  intros Hc Hne Hr Hh Hp Hpw Hpc Hdep.
  destruct (departure_from _ _ _ Hdep) as (st0 & -> & Er & _ & Ec & _ & Es).
  assert (Hgone : rooms (handleLeaveRoom ws st0) !! c = None).
  { rewrite (leave_host_deletes ws c room st0); try done;
      [|by rewrite Ec|by rewrite Er]. apply lookup_delete_eq. }
  assert (Hsock : socket (handleLeaveRoom ws st0) p = socket st p).
  { rewrite leave_other_socket by done. by apply Es. }
  assert (Hstale : ∀ stL st2, roomCode (socket stL p) = Some c →
            rooms stL !! c = None → departure p stL st2 →
            roomCode (socket st2 p) = Some c ∧
            role (socket st2 p) = role (socket stL p) ∧
            rooms st2 = rooms stL ∧ trace st2 = trace stL).
  { intros stL st2 HcL HrL Hdep2.
    destruct (departure_from _ _ _ Hdep2)
      as (st3 & -> & Er3 & Et3 & Ec3 & Eo3 & _).
    rewrite (leave_room_gone p c st3); [|by rewrite Ec3|by rewrite Er3].
    by rewrite Ec3, Eo3. }
  split_and!; [done|done| |done| |].
  - intros st2 Hdep2.
    destruct (Hstale _ st2 (eq_trans (f_equal roomCode Hsock) Hpc) Hgone Hdep2)
      as (H1 & H2 & H3 & H4).
    by rewrite H2, Hsock.
  - intros st2 message H1 H2. unfold forwardToPeer. by rewrite H1, H2.
  - intros st2 room2 t message H1 H2 H3 H4. unfold forwardToPeer.
    rewrite H1, H2, H3. by rewrite (proj2 (isOpen_true st2 t) H4).
Qed.

Lemma torn_down_peer_witness :
  let st := after two_party in
  let st1 := handleLeaveRoom 0 st in
  rooms st1 !! "ABC123" = None ∧
  socket st1 1 = socket st 1 ∧
  (∀ st2, departure 1 st1 st2 →
     roomCode (socket st2 1) = Some "ABC123" ∧
     role (socket st2 1) = role (socket st 1) ∧
     rooms st2 = rooms st1 ∧ trace st2 = trace st1) ∧
  (∀ stL st2, roomCode (socket stL 1) = Some "ABC123" →
     rooms stL !! "ABC123" = None →
     departure 1 stL st2 →
     roomCode (socket st2 1) = Some "ABC123" ∧
     role (socket st2 1) = role (socket stL 1) ∧
     rooms st2 = rooms stL ∧ trace st2 = trace stL) ∧
  (∀ st2 message, roomCode (socket st2 1) = Some "ABC123" →
     rooms st2 !! "ABC123" = None → forwardToPeer 1 message st2 = st2) ∧
  (∀ st2 room2 t message, roomCode (socket st2 1) = Some "ABC123" →
     rooms st2 !! "ABC123" = Some room2 →
     (if decide (1 = host room2) then peer room2 else Some (host room2))
       = Some t →
     readyState (socket st2 t) = OPEN →
     forwardToPeer 1 message st2 =
       send t (assign "senderRole" (roleJson (role (socket st2 1))) message)
         st2).
Proof.
  apply (torn_down_peer_keeps_stale_code (after two_party) 0 "ABC123"
           {| host := 0; peer := Some 1; users := {[0; 1]} |} 1
           (handleLeaveRoom 0 (after two_party))).
  - reflexivity.
  - discriminate.
  - vm_compute. reflexivity.
  - reflexivity.
  - reflexivity.
  - discriminate.
  - reflexivity.
  - apply leave_message_departs.
Defined.

(** C10 as stated fails, in two ways.  After the double join the host of
    AAAAAA leaves and the room is torn down, but the remaining peer,
    connection 2, carries the code of BBBBBB, not of the deleted room, and
    its next leave finds room BBBBBB and clears both fields.  And once the
    code ABC123 of a room torn down by its host has been drawn again for a
    room of connection 2, the leave of the stale peer, connection 1, finds
    that room, sends its host a ['peer-left'] notification and clears both
    fields. *)
Lemma stale_peer_leave_can_find_a_room :
  let st := after double_join in
  let st1 := handleLeaveRoom 0 st in
  let st2 := handleLeaveRoom 2 st1 in
  let sr := after code_reused in
  let sr' := handleLeaveRoom 1 sr in
  (run double_join init = Some st ∧
   rooms st !! "AAAAAA"
     = Some {| host := 0; peer := Some 2; users := {[0; 2]} |} ∧
   onMessage 0 (Some leaveRoomMsg) [] st = Some st1 ∧
   rooms st1 !! "AAAAAA" = None ∧
   roomCode (socket st1 2) = Some "BBBBBB" ∧
   onMessage 2 (Some leaveRoomMsg) [] st1 = Some st2 ∧
   roomCode (socket st2 2) = None ∧ role (socket st2 2) = None) ∧
  (run code_reused init = Some sr ∧
   roomCode (socket sr 1) = Some "ABC123" ∧
   rooms sr !! "ABC123"
     = Some {| host := 2; peer := None; users := {[2]} |} ∧
   onMessage 1 (Some leaveRoomMsg) [] sr = Some sr' ∧
   sentTo 2 (drop (length (trace sr)) (trace sr'))
     = [peerLeft (Some RHost)] ∧
   roomCode (socket sr' 1) = None ∧ role (socket sr' 1) = None).
Proof. vm_compute. split_and!; reflexivity. Qed.

(** ** Looking a code up *)

(** C2 (amended).  Codes are compared exactly.  In a reachable state with a
    room stored under [X], a [join-room] request that supplies [X] itself
    resolves to that room, and a request that supplies any other case
    variant [s] of [X] (one whose upper-case form is [X]) resolves to no
    room: it is answered with the error ['Room not found'] and changes
    nothing else, whether or not a join with [X] would succeed. *)
Theorem join_compares_codes_exactly st ws X room s :
  reachable st →
  rooms st !! X = Some room →
  toUpperCase s = X → s ≠ X →
  roomsGet st (Some (JStr X)) = Some (X, room) ∧
  roomsGet st (Some (JStr s)) = None ∧
  handleJoinRoom ws (Some (JStr s)) st =
    send ws (errorMsg "Room not found") st.
Proof.
  intros Hreach Hr Hup Hne.
  assert (Hs : rooms st !! s = None).
  { destruct (rooms st !! s) as [room'|] eqn:E; [|done].
    pose proof (codes_canonical_reachable _ Hreach _ _ E). congruence. }
  unfold handleJoinRoom, roomsGet. by rewrite Hr, Hs.
Qed.

Lemma host_waiting_runs : run host_waiting init = Some (after host_waiting).
Proof. vm_compute. reflexivity. Qed.

Lemma host_waiting_reachable : reachable (after host_waiting).
Proof. eapply run_reachable; [constructor|apply host_waiting_runs]. Qed.

Lemma join_compares_codes_exactly_witness :
  roomsGet (after host_waiting) (Some (JStr "ABC123")) =
    Some ("ABC123", {| host := 0; peer := None; users := {[0]} |}) ∧
  roomsGet (after host_waiting) (Some (JStr "abc123")) = None ∧
  handleJoinRoom 1 (Some (JStr "abc123")) (after host_waiting) =
    send 1 (errorMsg "Room not found") (after host_waiting).
Proof.
  apply (join_compares_codes_exactly (after host_waiting) 1 "ABC123"
           {| host := 0; peer := None; users := {[0]} |} "abc123").
  - apply host_waiting_reachable.
  - vm_compute. reflexivity.
  - reflexivity.
  - discriminate.
Defined.

(** C2 as stated fails: with room ABC123 open for a peer, a join that
    supplies the canonical code succeeds, and a join that supplies its
    lower-case variant is answered ['Room not found'] and joins nothing. *)
Lemma lowercase_code_is_not_found :
  let st := after host_waiting in
  run host_waiting init = Some st ∧
  rooms st !! "ABC123" = Some {| host := 0; peer := None; users := {[0]} |} ∧
  toUpperCase "abc123" = "ABC123" ∧
  sentTo 1 (trace (handleJoinRoom 1 (Some (JStr "ABC123")) st)) =
    [roomJoined "ABC123"] ∧
  peer <$> rooms (handleJoinRoom 1 (Some (JStr "ABC123")) st) !! "ABC123" =
    Some (Some 1) ∧
  sentTo 1 (trace (handleJoinRoom 1 (Some (JStr "abc123")) st)) =
    [errorMsg "Room not found"] ∧
  rooms (handleJoinRoom 1 (Some (JStr "abc123")) st) = rooms st.
Proof. vm_compute. split_and!; reflexivity. Qed.

(** ** Failed joins *)

Lemma typeTag_join_dispatch ws message rands st :
  typeTag message = Some "join-room" →
  onMessage ws (Some message) rands st =
    Some (handleJoinRoom ws (member "roomCode" message) st).
Proof.
  intros H. unfold onMessage. rewrite H. by destruct message.
Qed.

(** C3.  A [join-room] request always completes.  If the registry has no
    room for the value supplied as code, the only effect is one error
    message ['Room not found'] to the requester.  If the room found already
    has a peer, the only effect is one error message ['Room is full'] to the
    requester, and the room, with that same peer, is still in the
    registry.  In both cases the registry and every connection record are
    what they were. *)
Theorem join_failure_only_replies st ws message rands :
  typeTag message = Some "join-room" →
  ∃ st', onMessage ws (Some message) rands st = Some st' ∧
    (roomsGet st (member "roomCode" message) = None →
       rooms st' = rooms st ∧ sockets st' = sockets st ∧
       trace st' = (trace st ++ [Send ws (errorMsg "Room not found")])%list) ∧
    (∀ c room p,
       roomsGet st (member "roomCode" message) = Some (c, room) →
       peer room = Some p →
       rooms st' = rooms st ∧ sockets st' = sockets st ∧
       trace st' = (trace st ++ [Send ws (errorMsg "Room is full")])%list ∧
       rooms st' !! c = Some room).
Proof.
  intros Ht. exists (handleJoinRoom ws (member "roomCode" message) st).
  split; [by apply typeTag_join_dispatch|].
  unfold handleJoinRoom. split.
  - by intros ->.
  - intros c room p Hg Hp. rewrite Hg, Hp. simpl. split_and!; try done.
    unfold roomsGet in Hg. repeat case_match; by simplify_eq.
Qed.

Lemma join_failure_witness :
  ∃ st', onMessage 2 (Some (joinRoomMsg "ABC123")) [] (after two_party)
           = Some st' ∧
    (roomsGet (after two_party) (member "roomCode" (joinRoomMsg "ABC123"))
       = None →
       rooms st' = rooms (after two_party) ∧
       sockets st' = sockets (after two_party) ∧
       trace st' = (trace (after two_party) ++
                      [Send 2 (errorMsg "Room not found")])%list) ∧
    (∀ c room p,
       roomsGet (after two_party) (member "roomCode" (joinRoomMsg "ABC123"))
         = Some (c, room) →
       peer room = Some p →
       rooms st' = rooms (after two_party) ∧
       sockets st' = sockets (after two_party) ∧
       trace st' = (trace (after two_party) ++
                      [Send 2 (errorMsg "Room is full")])%list ∧
       rooms st' !! c = Some room).
Proof.
  apply (join_failure_only_replies (after two_party) 2 (joinRoomMsg "ABC123") []).
  reflexivity.
Defined.

(** Both failures, run: a third connection asks for the full room ABC123,
    then for a code that names no room. *)
Example join_failures_run :
  let st := after two_party in
  sentTo 2 (trace (handleJoinRoom 2 (Some (JStr "ABC123")) st)) =
    [errorMsg "Room is full"] ∧
  rooms (handleJoinRoom 2 (Some (JStr "ABC123")) st) = rooms st ∧
  sentTo 2 (trace (handleJoinRoom 2 (Some (JStr "ZZZZZZ")) st)) =
    [errorMsg "Room not found"] ∧
  rooms (handleJoinRoom 2 (Some (JStr "ZZZZZZ")) st) = rooms st ∧
  sentTo 2 (trace (handleJoinRoom 2 None st)) = [errorMsg "Room not found"].
Proof. vm_compute. split_and!; reflexivity. Qed.

(** ** Messages that are dropped *)

(** C9.  A payload that [JSON.parse] rejects, a parsed [null], and a parsed
    message whose [type] is missing, is not a string, or is a string other
    than the six known tags, all leave the server exactly as it was: the
    registry, every connection record (so the connection stays open) and
    the trace (so nothing is sent) are unchanged.  The handler returns, and
    the events that follow are handled from that same state. *)
Theorem unknown_message_is_dropped st ws data rands :
  data = None ∨ data = Some JNull ∨
  (∃ message, data = Some message ∧
     ∀ t, typeTag message = Some t → ¬ recognized t) →
  onMessage ws data rands st = Some st ∧
  (readyState (socket st ws) = OPEN → is_Some (sockets st !! ws) →
   ∀ es, run (Message ws data rands :: es) st = run es st).
Proof.
  intros H.
  assert (E : onMessage ws data rands st = Some st).
  { destruct H as [->|[->|(message & -> & Hun)]]; [done|done|].
    unfold onMessage. destruct message; try done.
    destruct (typeTag (JObj props)) as [t|] eqn:Ht; [|done].
    specialize (Hun t eq_refl). unfold recognized in Hun.
    repeat case_decide; try done; exfalso; apply Hun; tauto. }
  split; [done|]. intros Hopen [w Hw] es. simpl.
  unfold socket in Hopen. rewrite Hw in *. simpl in Hopen.
  rewrite decide_True by done. by rewrite E.
Qed.

Lemma unknown_message_witness :
  onMessage 1 (Some (JObj [("type", JStr "ping")])) [] (after two_party)
    = Some (after two_party) ∧
  (readyState (socket (after two_party) 1) = OPEN →
   is_Some (sockets (after two_party) !! 1) →
   ∀ es, run (Message 1 (Some (JObj [("type", JStr "ping")])) [] :: es)
           (after two_party) = run es (after two_party)).
Proof.
  apply (unknown_message_is_dropped (after two_party) 1
           (Some (JObj [("type", JStr "ping")])) []).
  right. right. exists (JObj [("type", JStr "ping")]). split; [reflexivity|].
  intros t [= <-]. unfold recognized. intros [H|[H|[H|[H|[H|H]]]]]; discriminate H.
Defined.

(** ** Relay *)








(** The scenario of the specification: the host's offer reaches the peer
    with [senderRole] appended. *)
Example offer_is_relayed :
  onMessage 0 (Some offerMsg) [] (after two_party) =
  Some (send 1 (JObj [("type", JStr "offer"); ("sdp", JStr "v=0");
                      ("senderRole", JStr "host")]) (after two_party)).
Proof. vm_compute. reflexivity. Qed.


(** ** One room per connection *)

Lemma run_reachable_by ok es st st' :
  reachable_by ok st → all_ok ok es st → run es st = Some st' →
  reachable_by ok st'.
Proof.
  revert st. induction es as [|e es IH]; simpl; intros st Hst.
  - by intros _ [= <-].
  - intros [Hok Hrest]. destruct (step e st) as [st1|] eqn:E; [|done].
    apply IH; [|done]. by eapply reach_step.
Qed.

(** C7 (amended).  In every state reached by connection, message and close
    events in which [create-room] and [join-room] are sent only by
    connections whose [roomCode] is null, no connection is referred to, as
    host, as peer or through the member set, by two rooms of the registry
    stored under different codes. *)
Theorem one_room_per_connection st ws c1 c2 room1 room2 :
  reachable_by unaffiliated_requests st →
  rooms st !! c1 = Some room1 → rooms st !! c2 = Some room2 →
  c1 ≠ c2 →
  ¬ (refers room1 ws ∧ refers room2 ws).
Proof.
  intros Hreach H1 H2 Hne [R1 R2].
  pose proof (affiliation_ok_reachable _ Hreach) as HI.
  pose proof (HI _ _ _ H1 R1). pose proof (HI _ _ _ H2 R2). congruence.
Qed.

Lemma two_rooms_runs : run two_rooms init = Some (after two_rooms).
Proof. vm_compute. reflexivity. Qed.

Lemma two_rooms_follows_protocol :
  reachable_by unaffiliated_requests (after two_rooms).
Proof.
  apply (run_reachable_by _ two_rooms init); [constructor| |apply two_rooms_runs].
  vm_compute. split_and!; try done; intros _; reflexivity.
Qed.

Lemma one_room_per_connection_witness :
  ¬ (refers {| host := 0; peer := None; users := {[0]} |} 0 ∧
     refers {| host := 1; peer := None; users := {[1]} |} 0).
Proof.
  refine (one_room_per_connection (after two_rooms) 0 "AAAAAA" "BBBBBB"
            {| host := 0; peer := None; users := {[0]} |}
            {| host := 1; peer := None; users := {[1]} |} _ _ _ _).
  - apply two_rooms_follows_protocol.
  - vm_compute. reflexivity.
  - vm_compute. reflexivity.
  - discriminate.
Defined.

(** C7 as stated fails: a connection that sends [create-room] twice is the
    host, and a member, of two rooms at once. *)
Lemma second_create_keeps_first_room :
  let st := after double_create in
  let room := {| host := 0; peer := None; users := {[0]} |} in
  run double_create init = Some st ∧
  rooms st !! "AAAAAA" = Some room ∧
  rooms st !! "BBBBBB" = Some room ∧
  "AAAAAA" ≠ "BBBBBB" ∧
  refers room 0.
Proof.
  split_and!; try (vm_compute; reflexivity); [discriminate|by left].
Qed.

(** ** Fresh codes *)

Lemma join_keeps_codes ws v st :
  dom (rooms (handleJoinRoom ws v st)) = dom (rooms st).
Proof.
  destruct (join_cases ws v st)
    as [[m ->]|(c & room & _ & Hr & _ & -> & _)]; [done|].
  rewrite dom_insert_L. apply elem_of_dom_2 in Hr. set_solver.
Qed.

(** C8.  [create-room] draws codes until one is not a key of the registry:
    it completes as soon as the draws contain such a code; every draw
    before the one it keeps collided with a live room; the code it keeps
    was not in the registry; the new room is stored under that code; every
    room that was in the registry is still there under its own code; and
    the registry has one more room.  [join-room] adds and removes no code.
    The codes under which the registry stores its rooms are pairwise
    distinct in every state. *)
Theorem create_room_allocates_fresh_code ws rands st :
  (Exists (λ r, rooms st !! generateRoomCode r = None) rands →
     is_Some (handleCreateRoom ws rands st)) ∧
  (∀ st', handleCreateRoom ws rands st = Some st' →
     ∃ pre r post, rands = (pre ++ r :: post)%list ∧
       Forall (λ r', is_Some (rooms st !! generateRoomCode r')) pre ∧
       rooms st !! generateRoomCode r = None ∧
       rooms st' = <[generateRoomCode r :=
                       {| host := ws; peer := None; users := {[ws]} |}]>
                     (rooms st) ∧
       (∀ c room, rooms st !! c = Some room → rooms st' !! c = Some room) ∧
       size (rooms st') = S (size (rooms st))) ∧
  (∀ v, dom (rooms (handleJoinRoom ws v st)) = dom (rooms st)) ∧
  NoDup (map_to_list (rooms st)).*1.
Proof.
  split_and!.
  - intros Hex. unfold handleCreateRoom.
    destruct (allocate_total _ _ Hex) as [c ->]. eauto.
  - intros st' Hc.
    destruct (create_cases _ _ _ _ Hc) as (c & Ha & Hr & _).
    destruct (allocate_Some _ _ _ Ha) as (Hfresh & pre & r & post & -> & -> & Hpre).
    exists pre, r, post. rewrite Hr. split_and!; try done.
    + intros c room H. rewrite lookup_insert_ne; [done|congruence].
    + by apply map_size_insert_None.
  - intros v. apply join_keeps_codes.
  - apply NoDup_fst_map_to_list.
Qed.

Lemma create_room_witness :
  (Exists (λ r, rooms (after host_waiting) !! generateRoomCode r = None)
     ["0.abc123"; "0.abc123zz"; "0.k3v9q1"] →
     is_Some (handleCreateRoom 1 ["0.abc123"; "0.abc123zz"; "0.k3v9q1"]
                (after host_waiting))) ∧
  (∀ st', handleCreateRoom 1 ["0.abc123"; "0.abc123zz"; "0.k3v9q1"]
            (after host_waiting) = Some st' →
     ∃ pre r post,
       ["0.abc123"; "0.abc123zz"; "0.k3v9q1"] = (pre ++ r :: post)%list ∧
       Forall (λ r', is_Some (rooms (after host_waiting)
                                !! generateRoomCode r')) pre ∧
       rooms (after host_waiting) !! generateRoomCode r = None ∧
       rooms st' = <[generateRoomCode r :=
                       {| host := 1; peer := None; users := {[1]} |}]>
                     (rooms (after host_waiting)) ∧
       (∀ c room, rooms (after host_waiting) !! c = Some room →
                  rooms st' !! c = Some room) ∧
       size (rooms st') = S (size (rooms (after host_waiting)))) ∧
  (∀ v, dom (rooms (handleJoinRoom 1 v (after host_waiting))) =
        dom (rooms (after host_waiting))) ∧
  NoDup (map_to_list (rooms (after host_waiting))).*1.
Proof.
  apply (create_room_allocates_fresh_code 1
           ["0.abc123"; "0.abc123zz"; "0.k3v9q1"] (after host_waiting)).
Defined.

(** Two colliding draws are retried and the third is kept. *)
Example create_room_retries :
  trace <$> handleCreateRoom 1 ["0.abc123"; "0.abc123zz"; "0.k3v9q1"]
              (after host_waiting) =
  Some (trace (after host_waiting) ++
          [RoomsSet "K3V9Q1"; Send 1 (roomCreated "K3V9Q1")])%list.
Proof. vm_compute. reflexivity. Qed.

(** While every draw collides the loop has not ended. *)
Example create_room_all_collide :
  handleCreateRoom 1 ["0.abc123"; "0.abc123zz"] (after host_waiting) = None.
Proof. vm_compute. reflexivity. Qed.

(** ** Scenarios *)

(** The peer closes: the host is told ['peer-left'] with its own role, and
    the room stays, open for another peer. *)
Example scenario_peer_disconnects :
  let st := after (two_party ++ [Close 1]) in
  run (two_party ++ [Close 1]) init = Some st ∧
  sentTo 0 (trace st) =
    [roomCreated "ABC123"; peerJoined; peerLeft (Some RHost)] ∧
  rooms st !! "ABC123" = Some {| host := 0; peer := None; users := {[0]} |}.
Proof. vm_compute. split_and!; reflexivity. Qed.

(** The host closes before anybody joined: the room is deleted. *)
Example scenario_host_alone_disconnects :
  let st := after (host_waiting ++ [Close 0]) in
  run (host_waiting ++ [Close 0]) init = Some st ∧ rooms st = ∅.
Proof. vm_compute. split_and!; reflexivity. Qed.

(** A room stored under the empty code is outside the leave logic: the test
    [!ws.roomCode] takes the empty string for null, so a member that closes
    is marked closed and nothing else happens. *)
Example empty_code_room_is_never_left :
  let st := after empty_code_room in
  run empty_code_room init = Some st ∧
  rooms st !! "" = Some {| host := 0; peer := Some 1; users := {[0; 1]} |} ∧
  onClose 1 st = setReadyState 1 CLOSED st ∧
  handleLeaveRoom 0 st = st.
Proof. vm_compute. split_and!; reflexivity. Qed.

(** * Further properties of the handlers *)

(** ** Generated codes *)

Lemma substring_length_le n m s : (String.length (substring n m s) ≤ m)%nat.
Proof.
  revert n m. induction s as [|a s IH]; intros [|n] [|m]; simpl; try lia.
  - specialize (IH 0 m). lia.
  - apply (IH n 0).
  - apply (IH n (S m)).
Qed.

Lemma toUpperCase_length s : String.length (toUpperCase s) = String.length s.
Proof. induction s as [|a s IH]; simpl; [done|]. by rewrite IH. Qed.

Lemma substring_empty_iff n s :
  substring n 6 s = "" ↔ (String.length s ≤ n)%nat.
Proof.
  revert n. induction s as [|a s IH]; intros [|n]; simpl.
  - split; [lia|done].
  - split; [lia|done].
  - split; [done|lia].
  - rewrite IH. lia.
Qed.

Lemma toUpperCase_empty_iff s : toUpperCase s = "" ↔ s = "".
Proof. destruct s; simpl; split; congruence. Qed.

(** X1.  A generated code has at most six characters and is unchanged by
    upper-casing, whatever the draw; and every code under which a reachable
    registry stores a room has both properties. *)
Theorem generated_codes_short_and_upper r st c room :
  ((String.length (generateRoomCode r) ≤ 6)%nat ∧
   toUpperCase (generateRoomCode r) = generateRoomCode r) ∧
  (reachable st → rooms st !! c = Some room →
   (String.length c ≤ 6)%nat ∧ toUpperCase c = c).
Proof.
  assert (G : ∀ r0, (String.length (generateRoomCode r0) ≤ 6)%nat).
  { intros r0. unfold generateRoomCode. rewrite toUpperCase_length.
    apply substring_length_le. }
  split; [split; [apply G|apply generateRoomCode_canonical]|].
  intros Hreach Hr. split; [|by eapply codes_canonical_reachable].
  revert c room Hr. pattern st. revert st Hreach.
  apply invariant_reachable_by.
  - intros c room. simpl. by rewrite lookup_empty.
  - done.
  - done.
  - intros ws _ rands st0 st' HI _ _ Hc c room.
    destruct (create_cases _ _ _ _ Hc) as (c0 & Ha & -> & _).
    rewrite lookup_insert_Some. intros [[<- _]|[_ H]]; [|by eapply HI].
    destruct (allocate_Some _ _ _ Ha) as (_ & _ & r0 & _ & _ & -> & _).
    apply G.
  - intros ws message _ st0 HI _ _ c room.
    destruct (join_cases ws (member "roomCode" message) st0)
      as [[m ->]|(c0 & room0 & _ & Hr & _ & -> & _)]; [by apply HI|].
    rewrite lookup_insert_Some. intros [[<- _]|[_ H]]; by eapply HI.
  - intros ws message st0 HI c room.
    destruct (forward_cases ws message st0) as [-> _]. apply HI.
  - intros ws st0 HI c room.
    destruct (leave_cases ws st0)
      as [->|(c0 & room0 & _ & _ & Hr & _ & [->|[Hne ->]])]; [by apply HI| |].
    + rewrite lookup_delete_Some. intros [_ H]. by eapply HI.
    + rewrite lookup_insert_Some. intros [[<- _]|[_ H]]; by eapply HI.
Qed.

Lemma generated_codes_witness :
  ((String.length (generateRoomCode "0.k3v9q1zzzz") ≤ 6)%nat ∧
   toUpperCase (generateRoomCode "0.k3v9q1zzzz")
     = generateRoomCode "0.k3v9q1zzzz") ∧
  (reachable (after two_party) →
   rooms (after two_party) !! "ABC123"
     = Some {| host := 0; peer := Some 1; users := {[0; 1]} |} →
   (String.length "ABC123" ≤ 6)%nat ∧ toUpperCase "ABC123" = "ABC123").
Proof.
  apply (generated_codes_short_and_upper "0.k3v9q1zzzz" (after two_party)
           "ABC123" {| host := 0; peer := Some 1; users := {[0; 1]} |}).
Defined.

(** X2.  The generated code is the empty string exactly when the text of
    the draw has at most two characters, as the text of 0 has. *)
Theorem generated_code_empty_iff r :
  generateRoomCode r = "" ↔ (String.length r ≤ 2)%nat.
Proof.
  unfold generateRoomCode. rewrite toUpperCase_empty_iff.
  apply substring_empty_iff.
Qed.

(** ** Successful requests *)

Lemma appended_app st st' l :
  trace st' = (trace st ++ l)%list → appended st st' = l.
Proof. intros E. unfold appended. rewrite E. apply drop_app_length. Qed.

Lemma typeTag_create_dispatch ws message rands st :
  typeTag message = Some "create-room" →
  onMessage ws (Some message) rands st = handleCreateRoom ws rands st.
Proof.
  intros H. unfold onMessage. rewrite H. by destruct message.
Qed.

Lemma readyState_setAffiliation ws ws' c r st :
  readyState (socket (setAffiliation ws c r st) ws') = readyState (socket st ws').
Proof.
  destruct (decide (ws' = ws)) as [->|Hne].
  - by rewrite socket_setAffiliation_eq.
  - by rewrite socket_setAffiliation_ne.
Qed.

(** X3.  When a [create-room] request completes, the code in the
    ['room-created'] reply is the code under which the new room is stored
    and the code recorded on the requester, whose role becomes host; the
    new room has the requester as host, no peer, and the requester as only
    member; no other connection record changes; and the request appends
    exactly the insertion followed by the reply. *)
Theorem create_reply_names_the_room ws message rands st st' :
  typeTag message = Some "create-room" →
  onMessage ws (Some message) rands st = Some st' →
  ∃ c, rooms st' !! c = Some {| host := ws; peer := None; users := {[ws]} |} ∧
    socket st' ws = {| roomCode := Some c; role := Some RHost;
                       readyState := readyState (socket st ws) |} ∧
    (∀ ws', ws' ≠ ws → socket st' ws' = socket st ws') ∧
    appended st st' = [RoomsSet c; Send ws (roomCreated c)].
Proof.
  intros Ht. rewrite (typeTag_create_dispatch _ _ _ _ Ht). intros Hc.
  destruct (create_cases _ _ _ _ Hc) as (c & _ & Hr & Hs & Htr).
  exists c. split_and!.
  - by rewrite Hr, lookup_insert_eq.
  - unfold socket at 1. by rewrite Hs, lookup_insert_eq.
  - intros ws' Hne. unfold socket. by rewrite Hs, lookup_insert_ne.
  - by apply appended_app.
Qed.

Lemma create_reply_witness :
  ∃ c, rooms (after host_waiting) !! c
         = Some {| host := 0; peer := None; users := {[0]} |} ∧
    socket (after host_waiting) 0
      = {| roomCode := Some c; role := Some RHost;
           readyState := readyState
             (socket (after [Connection 0; Connection 1]) 0) |} ∧
    (∀ ws', ws' ≠ 0 →
       socket (after host_waiting) ws'
         = socket (after [Connection 0; Connection 1]) ws') ∧
    appended (after [Connection 0; Connection 1]) (after host_waiting)
      = [RoomsSet c; Send 0 (roomCreated c)].
Proof.
  refine (create_reply_names_the_room 0 createRoomMsg ["0.abc123xyz"]
            (after [Connection 0; Connection 1]) (after host_waiting) _ _).
  - reflexivity.
  - vm_compute. reflexivity.
Defined.

(** X4.  A [join-room] request for a room without a peer attaches the
    requester: the room keeps its host, has the requester as peer and as a
    member; the requester records the code and the role peer; no other
    connection record changes; and the request appends the ['room-joined']
    reply to the requester followed, only when the host is open, by one
    ['peer-joined'] notification to the host. *)
Theorem join_attaches_peer st ws c room :
  rooms st !! c = Some room → peer room = None →
  let st' := handleJoinRoom ws (Some (JStr c)) st in
  rooms st' = <[c := {| host := host room; peer := Some ws;
                        users := {[ws]} ∪ users room |}]> (rooms st) ∧
  socket st' ws = {| roomCode := Some c; role := Some RPeer;
                     readyState := readyState (socket st ws) |} ∧
  (∀ ws', ws' ≠ ws → socket st' ws' = socket st ws') ∧
  appended st st' =
    Send ws (roomJoined c) ::
    (if decide (readyState (socket st (host room)) = OPEN)
     then [Send (host room) peerJoined] else []).
Proof.
  intros Hr Hp. unfold handleJoinRoom, roomsGet. rewrite Hr, Hp.
  set (st3 := send ws (roomJoined c) _).
  assert (Eo : isOpen st3 (host room) =
               bool_decide (readyState (socket st (host room)) = OPEN)).
  { unfold isOpen, st3.
    change (socket (send ?w ?m ?s) ?x) with (socket s x).
    rewrite readyState_setAffiliation. done. }
  rewrite Eo.
  assert (E3 : rooms st3 = <[c := {| host := host room; peer := Some ws;
                 users := {[ws]} ∪ users room |}]> (rooms st) ∧
               sockets st3 = <[ws := {| roomCode := Some c; role := Some RPeer;
                 readyState := readyState (socket st ws) |}]> (sockets st) ∧
               trace st3 = (trace st ++ [Send ws (roomJoined c)])%list).
  { done. }
  destruct E3 as (E3r & E3s & E3t). clearbody st3.
  assert (Es : ∀ st4, sockets st4 = sockets st3 →
            socket st4 ws = {| roomCode := Some c; role := Some RPeer;
                               readyState := readyState (socket st ws) |} ∧
            ∀ ws', ws' ≠ ws → socket st4 ws' = socket st ws').
  { intros st4 E4. unfold socket at 1 3. rewrite E4, E3s. split.
    - by rewrite lookup_insert_eq.
    - intros ws' Hne. by rewrite lookup_insert_ne. }
  destruct (decide (readyState (socket st (host room)) = OPEN)) as [Ho|Ho].
  - rewrite bool_decide_eq_true_2 by done.
    destruct (Es (send (host room) peerJoined st3) eq_refl) as [Es1 Es2].
    split_and!; [done|done|done|].
    apply appended_app. simpl. by rewrite E3t, <- app_assoc.
  - rewrite bool_decide_eq_false_2 by done.
    destruct (Es st3 eq_refl) as [Es1 Es2].
    split_and!; [done|done|done|]. by apply appended_app.
Qed.

Lemma join_attaches_peer_witness :
  let st := after host_waiting in
  let room := {| host := 0; peer := None; users := {[0]} |} in
  let st' := handleJoinRoom 1 (Some (JStr "ABC123")) st in
  rooms st' = <["ABC123" := {| host := host room; peer := Some 1;
                               users := {[1]} ∪ users room |}]> (rooms st) ∧
  socket st' 1 = {| roomCode := Some "ABC123"; role := Some RPeer;
                    readyState := readyState (socket st 1) |} ∧
  (∀ ws', ws' ≠ 1 → socket st' ws' = socket st ws') ∧
  appended st st' =
    Send 1 (roomJoined "ABC123") ::
    (if decide (readyState (socket st (host room)) = OPEN)
     then [Send (host room) peerJoined] else []).
Proof.
  refine (join_attaches_peer (after host_waiting) 1 "ABC123"
            {| host := 0; peer := None; users := {[0]} |} _ _).
  - vm_compute. reflexivity.
  - reflexivity.
Defined.

(** X5.  A [join-room] request whose [roomCode] field is missing, or holds
    anything but a string, is answered ['Room not found'] and changes
    neither the registry nor any connection record. *)
Theorem join_without_string_code st ws message rands :
  typeTag message = Some "join-room" →
  (∀ c, member "roomCode" message ≠ Some (JStr c)) →
  ∃ st', onMessage ws (Some message) rands st = Some st' ∧
    rooms st' = rooms st ∧ sockets st' = sockets st ∧
    appended st st' = [Send ws (errorMsg "Room not found")].
Proof.
  intros Ht Hv. rewrite (typeTag_join_dispatch _ _ _ _ Ht).
  eexists. split; [done|].
  unfold handleJoinRoom, roomsGet.
  destruct (member "roomCode" message) as [[|b|n|c|items|props]|];
    try (split_and!; [done|done|by apply appended_app]).
  by destruct (Hv c).
Qed.

Lemma join_without_string_code_witness :
  ∃ st', onMessage 1 (Some (JObj [("type", JStr "join-room");
                                  ("roomCode", JNum "123456")])) []
           (after host_waiting) = Some st' ∧
    rooms st' = rooms (after host_waiting) ∧
    sockets st' = sockets (after host_waiting) ∧
    appended (after host_waiting) st'
      = [Send 1 (errorMsg "Room not found")].
Proof.
  apply (join_without_string_code (after host_waiting) 1
           (JObj [("type", JStr "join-room"); ("roomCode", JNum "123456")]) []).
  - reflexivity.
  - intros c. discriminate.
Defined.

(** ** More on leaving *)

(** Either the leave logic exits early, or it finds the room. *)
Lemma leave_exits ws st :
  (handleLeaveRoom ws st = st ∧
   ∀ c, roomCode (socket st ws) = Some c → c ≠ "" → rooms st !! c = None) ∨
  (∃ c room, roomCode (socket st ws) = Some c ∧ c ≠ "" ∧
     rooms st !! c = Some room).
Proof.
  destruct (roomCode (socket st ws)) as [c|] eqn:Hc.
  - destruct (decide (c = "")) as [->|Hne].
    + left. split; [by apply leave_empty_code|]. by intros c [= <-].
    + destruct (rooms st !! c) as [room|] eqn:Hr.
      * right. by exists c, room.
      * left. split; [by eapply leave_room_gone|]. by intros c' [= <-].
  - left. split; [by apply leave_unaffiliated|done].
Qed.

Lemma leave_found_clears ws c room st :
  roomCode (socket st ws) = Some c → c ≠ "" → rooms st !! c = Some room →
  roomCode (socket (handleLeaveRoom ws st) ws) = None ∧
  role (socket (handleLeaveRoom ws st) ws) = None.
Proof.
  intros Hc Hne Hr. destruct (leave_room_found ws c room st) as [st3 ->]; try done.
  by rewrite socket_setAffiliation_eq.
Qed.

(** X6.  Leaving is idempotent: running the leave logic a second time for
    the same connection changes nothing more, and a close that follows a
    [leave-room] message only marks the connection closed. *)
Theorem leave_twice_is_leave_once ws st :
  handleLeaveRoom ws (handleLeaveRoom ws st) = handleLeaveRoom ws st ∧
  onClose ws (handleLeaveRoom ws st) =
    setReadyState ws CLOSED (handleLeaveRoom ws st).
Proof.
  destruct (leave_exits ws st) as [[E Hgone]|(c & room & Hc & Hne & Hr)].
  - rewrite !E. split; [done|]. unfold onClose.
    destruct (roomCode (socket st ws)) as [c|] eqn:Hc.
    + destruct (decide (c = "")) as [->|Hne].
      * apply leave_empty_code. by rewrite roomCode_setReadyState.
      * apply (leave_room_gone _ c); [by rewrite roomCode_setReadyState|].
        by apply Hgone.
    + apply leave_unaffiliated. by rewrite roomCode_setReadyState.
  - destruct (leave_found_clears ws c room st Hc Hne Hr) as [Hnone _].
    split; [by apply leave_unaffiliated|].
    unfold onClose. apply leave_unaffiliated.
    by rewrite roomCode_setReadyState.
Qed.

Lemma leave_other_room ws st c :
  roomCode (socket st ws) ≠ Some c →
  rooms (handleLeaveRoom ws st) !! c = rooms st !! c.
Proof.
  intros Hne.
  destruct (leave_cases ws st)
    as [->|(c0 & room0 & Hc & _ & _ & _ & [->|[_ ->]])]; [done| |].
  - rewrite lookup_delete_ne; [done|congruence].
  - rewrite lookup_insert_ne; [done|congruence].
Qed.

(** X7.  Joining and leaving touch one room and one connection record: a
    leave changes no room other than the one named by the leaving
    connection's [roomCode], a join changes no room other than the one
    named by the request, and neither changes the record of any other
    connection. *)
Theorem join_and_leave_touch_one_room ws st c :
  (roomCode (socket st ws) ≠ Some c →
     rooms (handleLeaveRoom ws st) !! c = rooms st !! c) ∧
  (∀ v, v ≠ Some (JStr c) →
     rooms (handleJoinRoom ws v st) !! c = rooms st !! c) ∧
  (∀ ws' v, ws' ≠ ws →
     socket (handleLeaveRoom ws st) ws' = socket st ws' ∧
     socket (handleJoinRoom ws v st) ws' = socket st ws').
Proof.
  split_and!.
  - apply leave_other_room.
  - intros v Hv.
    destruct (join_cases ws v st)
      as [[m ->]|(c0 & room0 & -> & _ & _ & -> & _)]; [done|].
    rewrite lookup_insert_ne; [done|congruence].
  - intros ws' v Hne. split; [by apply leave_other_socket|].
    destruct (join_cases ws v st)
      as [[m ->]|(c0 & room0 & _ & _ & _ & _ & Hs)]; [done|].
    unfold socket. by rewrite Hs, lookup_insert_ne.
Qed.

Lemma join_and_leave_frame_witness :
  (roomCode (socket (after two_rooms) 0) ≠ Some "BBBBBB" →
     rooms (handleLeaveRoom 0 (after two_rooms)) !! "BBBBBB"
       = rooms (after two_rooms) !! "BBBBBB") ∧
  (∀ v, v ≠ Some (JStr "BBBBBB") →
     rooms (handleJoinRoom 0 v (after two_rooms)) !! "BBBBBB"
       = rooms (after two_rooms) !! "BBBBBB") ∧
  (∀ ws' v, ws' ≠ 0 →
     socket (handleLeaveRoom 0 (after two_rooms)) ws'
       = socket (after two_rooms) ws' ∧
     socket (handleJoinRoom 0 v (after two_rooms)) ws'
       = socket (after two_rooms) ws').
Proof.
  apply (join_and_leave_touch_one_room 0 (after two_rooms) "BBBBBB").
Defined.

(** X8.  When the host of a room that has no peer leaves, by a
    [leave-room] message or by closing, and its [roomCode] is the room's
    code, which is not the empty string, the room is deleted, nothing is
    sent, and the host's [roomCode] and [role] become null. *)
Theorem lone_host_departure_is_silent st ws c room st' :
  roomCode (socket st ws) = Some c → c ≠ "" →
  rooms st !! c = Some room →
  host room = ws → peer room = None →
  departure ws st st' →
  rooms st' = delete c (rooms st) ∧
  appended st st' = [RoomsDelete c] ∧
  roomCode (socket st' ws) = None ∧ role (socket st' ws) = None.
Proof.
  intros Hc Hne Hr Hh Hp Hdep.
  destruct (departure_from _ _ _ Hdep) as (st0 & -> & Er & Et & Ec & _ & _).
  assert (Hc0 : roomCode (socket st0 ws) = Some c) by by rewrite Ec.
  assert (Hr0 : rooms st0 !! c = Some room) by by rewrite Er.
  split_and!.
  - rewrite (leave_host_deletes ws c room st0); try done. by rewrite Er.
  - apply appended_app. rewrite <- Et. unfold handleLeaveRoom.
    rewrite Hc0, Hr0. destruct (decide (c = "")) as [|_]; [done|].
    rewrite Hp. destruct (decide (ws = host room)) as [_|]; [|by subst].
    by destruct (decide (size _ = 0)).
  - by apply (leave_found_clears ws c room st0).
  - by apply (leave_found_clears ws c room st0).
Qed.

Lemma lone_host_departure_witness :
  rooms (onClose 0 (after host_waiting))
    = delete "ABC123" (rooms (after host_waiting)) ∧
  appended (after host_waiting) (onClose 0 (after host_waiting))
    = [RoomsDelete "ABC123"] ∧
  roomCode (socket (onClose 0 (after host_waiting)) 0) = None ∧
  role (socket (onClose 0 (after host_waiting)) 0) = None.
Proof.
  refine (lone_host_departure_is_silent (after host_waiting) 0 "ABC123"
            {| host := 0; peer := None; users := {[0]} |}
            (onClose 0 (after host_waiting)) _ _ _ _ _ _).
  - reflexivity.
  - discriminate.
  - vm_compute. reflexivity.
  - reflexivity.
  - reflexivity.
  - apply disconnect.
Defined.

(** ** One event at a time *)

Lemma onMessage_cases ws data rands st st' :
  onMessage ws data rands st = Some st' →
  st' = st ∨
  handleCreateRoom ws rands st = Some st' ∨
  (∃ v, st' = handleJoinRoom ws v st) ∨
  (∃ message, st' = forwardToPeer ws message st) ∨
  st' = handleLeaveRoom ws st.
Proof.
  unfold onMessage. destruct data as [message|]; [|intros [= <-]; by left].
  destruct (typeTag message) as [t|] eqn:Ht;
    [|destruct message; intros [= <-]; by left].
  destruct message; try discriminate Ht.
  repeat case_decide; try (intros [= <-]); eauto 10.
Qed.

Lemma step_cases e st st' :
  step e st = Some st' →
  (∃ ws, e = Connection ws ∧ sockets st !! ws = None ∧ st' = connect ws st) ∨
  (∃ ws data rands, e = Message ws data rands ∧
     readyState (socket st ws) = OPEN ∧
     onMessage ws data rands st = Some st') ∨
  (∃ ws, e = Close ws ∧ st' = onClose ws st).
Proof.
  destruct e as [ws|ws data rands|ws]; simpl.
  - destruct (sockets st !! ws) eqn:E; [done|]. intros [= <-]. left. eauto.
  - destruct (sockets st !! ws) as [w|] eqn:E; [|done].
    case_decide as Ho; [|done]. intros H. right. left.
    exists ws, data, rands. split_and!; try done.
    unfold socket. by rewrite E.
  - destruct (sockets st !! ws) as [w|] eqn:E; [|done].
    case_decide; [done|]. intros [= <-]. right. right. eauto.
Qed.

(** No handler writes [readyState]. *)
Lemma create_readyState ws rands st st' x :
  handleCreateRoom ws rands st = Some st' →
  readyState (socket st' x) = readyState (socket st x).
Proof.
  intros Hc. destruct (create_cases _ _ _ _ Hc) as (c & _ & _ & Hs & _).
  unfold socket at 1. rewrite Hs.
  destruct (decide (x = ws)) as [->|Hne].
  - by rewrite lookup_insert_eq.
  - by rewrite lookup_insert_ne.
Qed.

Lemma join_readyState ws v st x :
  readyState (socket (handleJoinRoom ws v st) x) = readyState (socket st x).
Proof.
  destruct (join_cases ws v st)
    as [[m ->]|(c0 & room0 & _ & _ & _ & _ & Hs)]; [done|].
  unfold socket at 1. rewrite Hs.
  destruct (decide (x = ws)) as [->|Hne].
  - by rewrite lookup_insert_eq.
  - by rewrite lookup_insert_ne.
Qed.

Lemma forward_readyState ws message st x :
  readyState (socket (forwardToPeer ws message st) x) = readyState (socket st x).
Proof.
  destruct (forward_cases ws message st) as [_ Hs].
  unfold socket. by rewrite Hs.
Qed.

Lemma leave_readyState ws st x :
  readyState (socket (handleLeaveRoom ws st) x) = readyState (socket st x).
Proof.
  destruct (leave_cases ws st)
    as [->|(c0 & room0 & _ & _ & _ & Hs & _)]; [done|].
  unfold socket at 1. rewrite Hs.
  destruct (decide (x = ws)) as [->|Hne].
  - by rewrite lookup_insert_eq.
  - by rewrite lookup_insert_ne.
Qed.

Lemma leave_sends ws st :
  ∃ l, trace (handleLeaveRoom ws st) = (trace st ++ l)%list ∧
       sends_to_open st l.
Proof.
  unfold handleLeaveRoom, sends_to_open.
  repeat (case_match || case_decide); simpl;
    rewrite <- ?app_assoc; simpl;
    (eexists; split; [reflexivity || (symmetry; apply app_nil_r)|]);
    intros to msg Hin;
    repeat (apply elem_of_cons in Hin as [Hin|Hin]; [simplify_eq|]);
    try (by apply elem_of_nil in Hin);
    by apply isOpen_true.
Qed.

Lemma forward_sends ws message st :
  ∃ l, trace (forwardToPeer ws message st) = (trace st ++ l)%list ∧
       sends_to_open st l.
Proof.
  unfold forwardToPeer, sends_to_open.
  repeat (case_match || case_decide); simpl;
    (eexists; split; [reflexivity || (symmetry; apply app_nil_r)|]);
    intros to msg Hin;
    repeat (apply elem_of_cons in Hin as [Hin|Hin]; [simplify_eq|]);
    try (by apply elem_of_nil in Hin);
    by apply isOpen_true.
Qed.

Lemma join_sends ws v st :
  readyState (socket st ws) = OPEN →
  ∃ l, trace (handleJoinRoom ws v st) = (trace st ++ l)%list ∧
       sends_to_open st l.
Proof.
  intros Hopen. unfold handleJoinRoom, sends_to_open.
  repeat (case_match || case_decide); simpl;
    rewrite <- ?app_assoc; simpl;
    (eexists; split; [reflexivity|]);
    intros to msg Hin;
    repeat (apply elem_of_cons in Hin as [Hin|Hin]; [simplify_eq|]);
    try (by apply elem_of_nil in Hin); try done.
  match goal with H : isOpen _ _ = true |- _ => apply isOpen_true in H end.
  by rewrite <- (readyState_setAffiliation ws _ (Some s) (Some RPeer)).
Qed.

Lemma create_sends ws rands st st' :
  readyState (socket st ws) = OPEN →
  handleCreateRoom ws rands st = Some st' →
  ∃ l, trace st' = (trace st ++ l)%list ∧ sends_to_open st l.
Proof.
  intros Hopen Hc. destruct (create_cases _ _ _ _ Hc) as (c & _ & _ & _ & Ht).
  eexists. split; [done|]. intros to msg Hin.
  repeat (apply elem_of_cons in Hin as [Hin|Hin]; [simplify_eq|]);
    try (by apply elem_of_nil in Hin); done.
Qed.

(** X9.  The server sends only to open connections: whatever one event
    makes the server send goes to connections whose [readyState] is OPEN
    when the event has been handled, and what was in the trace before stays
    as it was. *)
Theorem only_open_connections_are_sent_to e st st' :
  step e st = Some st' →
  ∃ l, trace st' = (trace st ++ l)%list ∧ sends_to_open st' l.
Proof.
  intros Hstep.
  destruct (step_cases _ _ _ Hstep)
    as [(ws & -> & _ & ->)|[(ws & data & rands & -> & Hopen & Hm)|(ws & -> & ->)]].
  - exists []. split; [by rewrite app_nil_r|]. intros to msg Hin.
    by apply elem_of_nil in Hin.
  - destruct (onMessage_cases _ _ _ _ _ Hm)
      as [->|[Hc|[[v ->]|[[message ->]| ->]]]].
    + exists []. split; [by rewrite app_nil_r|]. intros to msg Hin.
      by apply elem_of_nil in Hin.
    + destruct (create_sends _ _ _ _ Hopen Hc) as (l & Ht & Hl).
      exists l. split; [done|]. intros to msg Hin.
      rewrite (create_readyState _ _ _ _ _ Hc). by eapply Hl.
    + destruct (join_sends ws v st Hopen) as (l & Ht & Hl).
      exists l. split; [done|]. intros to msg Hin.
      rewrite join_readyState. by eapply Hl.
    + destruct (forward_sends ws message st) as (l & Ht & Hl).
      exists l. split; [done|]. intros to msg Hin.
      rewrite forward_readyState. by eapply Hl.
    + destruct (leave_sends ws st) as (l & Ht & Hl).
      exists l. split; [done|]. intros to msg Hin.
      rewrite leave_readyState. by eapply Hl.
  - unfold onClose.
    destruct (leave_sends ws (setReadyState ws CLOSED st)) as (l & Ht & Hl).
    exists l. split; [done|]. intros to msg Hin.
    rewrite leave_readyState. by eapply Hl.
Qed.

Lemma only_open_witness :
  ∃ l, trace (after (two_party ++ [Close 0])) =
         (trace (after two_party) ++ l)%list ∧
       sends_to_open (after (two_party ++ [Close 0])) l.
Proof.
  apply (only_open_connections_are_sent_to (Close 0) (after two_party)
           (after (two_party ++ [Close 0]))).
  vm_compute. reflexivity.
Defined.

(** ** The shape of a room *)

Lemma shape_ok_reachable st : reachable st → shape_ok st.
Proof.
  apply invariant_reachable_by; unfold shape_ok, peerSet.
  - intros c room. simpl. by rewrite lookup_empty.
  - done.
  - done.
  - intros ws _ rands st0 st' HI _ _ Hc c room.
    destruct (create_cases _ _ _ _ Hc) as (c0 & _ & -> & _).
    rewrite lookup_insert_Some. intros [[_ <-]|[_ H]]; [|by eapply HI].
    simpl. set_solver.
  - intros ws message _ st0 HI _ _ c room.
    destruct (join_cases ws (member "roomCode" message) st0)
      as [[m ->]|(c0 & room0 & _ & Hr & Hp & -> & _)]; [by apply HI|].
    rewrite lookup_insert_Some. intros [[_ <-]|[_ H]]; [|by eapply HI].
    simpl. specialize (HI _ _ Hr). rewrite Hp in HI. rewrite HI. set_solver.
  - intros ws message st0 HI c room.
    destruct (forward_cases ws message st0) as [-> _]. apply HI.
  - intros ws st0 HI c room.
    destruct (leave_cases ws st0)
      as [->|(c0 & room0 & _ & _ & Hr & _ & [->|[Hne ->]])]; [by apply HI| |].
    + rewrite lookup_delete_Some. intros [_ H]. by eapply HI.
    + rewrite lookup_insert_Some. intros [[_ <-]|[_ H]]; [|by eapply HI].
      simpl. specialize (HI _ _ Hr). rewrite HI.
      destruct (peer room0) as [p|] eqn:Hp.
      * case_decide as Hpw; [simplify_eq; set_solver|].
        assert (p ≠ ws) by congruence. set_solver.
      * rewrite decide_False by done. set_solver.
Qed.

(** X10.  In every reachable state the member set of a room is exactly its
    host together with its peer, if it has one; so a room has one or two
    members. *)
Theorem members_are_host_and_peer st c room :
  reachable st → rooms st !! c = Some room →
  users room = {[host room]} ∪ peerSet room ∧
  (1 ≤ size (users room) ≤ 2)%nat.
Proof.
  intros Hreach Hr. pose proof (shape_ok_reachable _ Hreach _ _ Hr) as E.
  split; [done|]. rewrite E. unfold peerSet.
  destruct (peer room) as [p|].
  - destruct (decide (p = host room)) as [->|Hne].
    + replace ({[host room]} ∪ {[host room]} : gset ConnId)
        with ({[host room]} : gset ConnId) by set_solver.
      rewrite size_singleton. lia.
    + rewrite size_union by set_solver. rewrite !size_singleton. lia.
  - rewrite union_empty_r_L, size_singleton. lia.
Qed.

Lemma members_are_host_and_peer_witness :
  users {| host := 0; peer := Some 1; users := {[0; 1]} |}
    = {[host {| host := 0; peer := Some 1; users := {[0; 1]} |}]}
      ∪ peerSet {| host := 0; peer := Some 1; users := {[0; 1]} |} ∧
  (1 ≤ size (users {| host := 0; peer := Some 1; users := {[0; 1]} |}) ≤ 2)%nat.
Proof.
  refine (members_are_host_and_peer (after two_party) "ABC123"
            {| host := 0; peer := Some 1; users := {[0; 1]} |} _ _).
  - apply two_party_reachable.
  - vm_compute. reflexivity.
Defined.

(** A connection other than the host, leaving a room whose host is a
    member, keeps the room. *)
Lemma leave_nonhost_keeps ws c room st :
  roomCode (socket st ws) = Some c → c ≠ "" → rooms st !! c = Some room →
  host room ≠ ws → host room ∈ users room →
  rooms (handleLeaveRoom ws st) =
    <[c := {| host := host room;
              peer := if decide (peer room = Some ws) then None else peer room;
              users := users room ∖ {[ws]} |}]> (rooms st).
Proof.
  intros Hc Hne Hr Hh Hin. unfold handleLeaveRoom. rewrite Hc, Hr.
  destruct (decide (c = "")) as [|_]; [done|]. simpl users.
  destruct (decide (ws = host room)) as [|_]; [by subst|].
  destruct (decide (size (users room ∖ {[ws]}) = 0)) as [Hz|_].
  { apply size_empty_iff in Hz. set_solver. }
  destruct (isOpen _ (host room));
    destruct (decide (peer room = Some ws)); simpl;
    by rewrite ?insert_insert_eq.
Qed.

(** X11.  In a reachable state only the host's own departure removes a
    room: when any other connection leaves, by a [leave-room] message or by
    closing, every room of the registry is still there, with the same
    host. *)
Theorem only_the_host_removes_its_room st ws c room st' :
  reachable st → rooms st !! c = Some room → host room ≠ ws →
  departure ws st st' →
  ∃ room', rooms st' !! c = Some room' ∧ host room' = host room.
Proof.
  intros Hreach Hr Hh Hdep.
  destruct (members_ok_reachable _ Hreach _ _ Hr) as [Hin _].
  destruct (departure_from _ _ _ Hdep) as (st0 & -> & Er & _ & _ & _ & _).
  rewrite <- Er in Hr.
  destruct (leave_exits ws st0) as [[-> _]|(c0 & room0 & Hc0 & Hne0 & Hr0)];
    [by exists room|].
  destruct (decide (c0 = c)) as [->|Hcc].
  - assert (room0 = room) as -> by congruence.
    rewrite (leave_nonhost_keeps ws c room st0) by done.
    rewrite lookup_insert_eq. by eexists.
  - exists room. split; [|done].
    rewrite leave_other_room; [done|congruence].
Qed.

Lemma only_the_host_removes_witness :
  ∃ room', rooms (onClose 1 (after two_party)) !! "ABC123" = Some room' ∧
    host room' = host {| host := 0; peer := Some 1; users := {[0; 1]} |}.
Proof.
  refine (only_the_host_removes_its_room (after two_party) 1 "ABC123"
            {| host := 0; peer := Some 1; users := {[0; 1]} |}
            (onClose 1 (after two_party)) _ _ _ _).
  - apply two_party_reachable.
  - vm_compute. reflexivity.
  - discriminate.
  - apply disconnect.
Defined.

(** X12.  While a room stays in the registry its host never changes, and
    its peer is never replaced: one event either leaves the peer field as
    it was, or fills an empty field with the connection that sent the
    request, or empties the field when that very peer leaves. *)
Theorem host_is_fixed_and_peer_never_replaced e st st' c room room' :
  step e st = Some st' →
  rooms st !! c = Some room → rooms st' !! c = Some room' →
  host room' = host room ∧
  (peer room' = peer room ∨
   (peer room = None ∧ peer room' = Some (actor e)) ∨
   (peer room = Some (actor e) ∧ peer room' = None)).
Proof.
  intros Hstep Hr Hr'.
  assert (Same : rooms st' !! c = rooms st !! c →
                 host room' = host room ∧
                 (peer room' = peer room ∨
                  (peer room = None ∧ peer room' = Some (actor e)) ∨
                  (peer room = Some (actor e) ∧ peer room' = None))).
  { intros E. rewrite Hr, Hr' in E. simplify_eq. eauto. }
  assert (Leave : ∀ ws st0, actor e = ws → rooms st0 = rooms st →
                    st' = handleLeaveRoom ws st0 →
                    host room' = host room ∧
                    (peer room' = peer room ∨
                     (peer room = None ∧ peer room' = Some (actor e)) ∨
                     (peer room = Some (actor e) ∧ peer room' = None))).
  { intros ws st0 Ha Er ->. rewrite Ha. rewrite <- Er in Hr.
    destruct (leave_cases ws st0)
      as [E|(c0 & room0 & _ & _ & Hr0 & _ & [E|[_ E]])].
    - rewrite E in Hr'. simplify_eq. eauto.
    - rewrite E in Hr'. apply lookup_delete_Some in Hr' as [_ Hr'].
      simplify_eq. eauto.
    - rewrite E in Hr'. apply lookup_insert_Some in Hr' as [[<- <-]|[_ Hr']];
        [|simplify_eq; eauto].
      simplify_eq. simpl. split; [done|]. case_decide; eauto. }
  destruct (step_cases _ _ _ Hstep)
    as [(ws & -> & _ & ->)|[(ws & data & rands & -> & _ & Hm)|(ws & -> & ->)]].
  - by apply Same.
  - destruct (onMessage_cases _ _ _ _ _ Hm)
      as [->|[Hc|[[v ->]|[[message ->]| ->]]]].
    + by apply Same.
    + destruct (create_cases _ _ _ _ Hc) as (c0 & Ha & E & _).
      destruct (allocate_Some _ _ _ Ha) as [Hfresh _].
      apply Same. rewrite E, lookup_insert_ne; [done|congruence].
    + destruct (join_cases ws v st)
        as [[m E]|(c0 & room0 & _ & Hr0 & Hp0 & E & _)].
      * apply Same. by rewrite E.
      * rewrite E in Hr'.
        apply lookup_insert_Some in Hr' as [[<- <-]|[_ Hr']];
          simplify_eq; simpl; eauto.
    + apply Same. by destruct (forward_cases ws message st) as [-> _].
    + by apply (Leave ws st).
  - by apply (Leave ws (setReadyState ws CLOSED st)).
Qed.

Lemma host_is_fixed_witness :
  let room := {| host := 0; peer := Some 1; users := {[0; 1]} |} in
  let room' := {| host := 0; peer := None; users := {[0]} |} in
  host room' = host room ∧
  (peer room' = peer room ∨
   (peer room = None ∧ peer room' = Some (actor (Close 1))) ∨
   (peer room = Some (actor (Close 1)) ∧ peer room' = None)).
Proof.
  refine (host_is_fixed_and_peer_never_replaced (Close 1) (after two_party)
            (after peer_gone) "ABC123"
            {| host := 0; peer := Some 1; users := {[0; 1]} |}
            {| host := 0; peer := None; users := {[0]} |} _ _ _).
  - vm_compute. reflexivity.
  - vm_compute. reflexivity.
  - vm_compute. reflexivity.
Defined.

(** ** The role stamped on a relayed message *)

Lemma fields_paired_insert ws w st st' :
  sockets st' = <[ws := w]> (sockets st) →
  (roomCode w = None ↔ role w = None) →
  fields_paired st → fields_paired st'.
Proof.
  intros Hs Hw HI x. unfold socket. rewrite Hs.
  destruct (decide (x = ws)) as [->|Hne].
  - by rewrite lookup_insert_eq.
  - rewrite lookup_insert_ne by done. apply HI.
Qed.

Lemma fields_paired_reachable st : reachable st → fields_paired st.
Proof.
  apply invariant_reachable_by.
  - intros ws. done.
  - intros ws st0 _ HI. by apply (fields_paired_insert ws newSocket st0).
  - intros ws s st0 HI. eapply (fields_paired_insert ws); [done| |done].
    apply HI.
  - intros ws _ rands st0 st' HI _ _ Hc.
    destruct (create_cases _ _ _ _ Hc) as (c0 & _ & _ & Hs & _).
    by eapply fields_paired_insert.
  - intros ws message _ st0 HI _ _.
    destruct (join_cases ws (member "roomCode" message) st0)
      as [[m ->]|(c0 & room0 & _ & _ & _ & _ & Hs)]; [done|].
    by eapply fields_paired_insert.
  - intros ws message st0 HI x.
    destruct (forward_cases ws message st0) as [_ Hs].
    unfold socket. rewrite Hs. apply HI.
  - intros ws st0 HI.
    destruct (leave_cases ws st0)
      as [->|(c0 & room0 & _ & _ & _ & Hs & _)]; [done|].
    by eapply fields_paired_insert.
Qed.

(** X13.  In a reachable state a relay either changes nothing or appends
    exactly one message whose [senderRole] is the string ['host'] or the
    string ['peer']: the role stamped on a delivered message is never
    null. *)
Theorem relayed_role_is_never_null st ws message :
  reachable st →
  forwardToPeer ws message st = st ∨
  ∃ t r, role (socket st ws) = Some r ∧
    forwardToPeer ws message st =
      send t (assign "senderRole"
                (JStr (match r with RHost => "host" | RPeer => "peer" end))
                message) st.
Proof.
  intros Hreach. pose proof (fields_paired_reachable _ Hreach ws) as Hp.
  unfold forwardToPeer.
  destruct (roomCode (socket st ws)) as [c|] eqn:Hc; [|by left].
  destruct (rooms st !! c) as [room|]; [|by left].
  destruct (if decide (ws = host room) then peer room else Some (host room))
    as [t|]; [|by left].
  destruct (isOpen st t); [|by left].
  destruct (role (socket st ws)) as [r|].
  - right. exists t, r. split; [done|]. by destruct r.
  - destruct Hp as [_ Hp]. by specialize (Hp eq_refl).
Qed.

Lemma relayed_role_witness :
  forwardToPeer 1 offerMsg (after two_party) = after two_party ∨
  ∃ t r, role (socket (after two_party) 1) = Some r ∧
    forwardToPeer 1 offerMsg (after two_party) =
      send t (assign "senderRole"
                (JStr (match r with RHost => "host" | RPeer => "peer" end))
                offerMsg) (after two_party).
Proof.
  apply (relayed_role_is_never_null (after two_party) 1 offerMsg).
  apply two_party_reachable.
Defined.

(** ** Roles under the protocol *)

Lemma onMessage_request_cases ws data rands st st' :
  onMessage ws data rands st = Some st' →
  st' = st ∨
  (requestsRoom data ∧ handleCreateRoom ws rands st = Some st') ∨
  (requestsRoom data ∧ ∃ v, st' = handleJoinRoom ws v st) ∨
  (∃ message, st' = forwardToPeer ws message st) ∨
  st' = handleLeaveRoom ws st.
Proof.
  unfold onMessage. destruct data as [message|]; [|intros [= <-]; by left].
  destruct (typeTag message) as [t|] eqn:Ht;
    [|destruct message; intros [= <-]; by left].
  destruct message; try discriminate Ht.
  unfold requestsRoom. rewrite Ht.
  repeat case_decide; subst; try (intros [= <-]); eauto 10.
Qed.

Lemma roles_ok_frame st st' :
  rooms st' = rooms st →
  (∀ x, role (socket st' x) = role (socket st x)) →
  roles_ok st → roles_ok st'.
Proof.
  intros Er Es HI c room Hr. rewrite Er in Hr.
  destruct (HI _ _ Hr) as [Hh Hp]. split.
  - by rewrite Es.
  - intros p Hpp. rewrite Es. by apply Hp.
Qed.

Lemma affiliation_ok_frame st st' :
  rooms st' = rooms st →
  (∀ x, roomCode (socket st' x) = roomCode (socket st x)) →
  affiliation_ok st → affiliation_ok st'.
Proof.
  intros Er Es HI c room ws Hr Href. rewrite Er in Hr. rewrite Es.
  by eapply HI.
Qed.

Lemma roles_ok_leave ws st :
  affiliation_ok st → roles_ok st → roles_ok (handleLeaveRoom ws st).
Proof.
  intros HA HI.
  destruct (leave_cases ws st)
    as [->|(c0 & room0 & Hc & _ & Hr0 & Hs & Hrooms)]; [done|].
  assert (Hrole : ∀ x, x ≠ ws →
            role (socket (handleLeaveRoom ws st) x) = role (socket st x)).
  { intros x Hne. unfold socket. by rewrite Hs, lookup_insert_ne. }
  assert (Hother : ∀ c room x, rooms st !! c = Some room → c ≠ c0 →
            refers room x → x ≠ ws).
  { intros c room x Hr Hne Href ->.
    specialize (HA _ _ _ Hr Href). congruence. }
  intros c room Hr.
  assert (Hold : ∀ room1, rooms st !! c = Some room1 →
            host room = host room1 → host room ≠ ws →
            (∀ p, peer room = Some p → peer room1 = Some p ∧ p ≠ ws) →
            role (socket (handleLeaveRoom ws st) (host room)) = Some RHost ∧
            ∀ p, peer room = Some p →
                 role (socket (handleLeaveRoom ws st) p) = Some RPeer).
  { intros room1 Hr1 Eh Hh Hp. destruct (HI _ _ Hr1) as [Ih Ip]. split.
    - rewrite Hrole by done. by rewrite Eh.
    - intros p Hpp. destruct (Hp _ Hpp) as [Hp1 Hpw].
      rewrite Hrole by done. by apply Ip. }
  destruct Hrooms as [E|[Hne E]]; rewrite E in Hr.
  - apply lookup_delete_Some in Hr as [Hc0 Hr].
    apply (Hold room); try done.
    + eapply Hother; [done|done|by left].
    + intros p Hpp. split; [done|].
      eapply Hother; [done|done|]. right. by left.
  - apply lookup_insert_Some in Hr as [[<- <-]|[Hc0 Hr]].
    + apply (Hold room0); try done. simpl. intros p.
      case_decide as Hpw; [done|]. intros Hpp. split; [done|congruence].
    + apply (Hold room); try done.
      * eapply Hother; [done|done|by left].
      * intros p Hpp. split; [done|].
        eapply Hother; [done|done|]. right. by left.
Qed.

Lemma roles_ok_reachable st :
  reachable_by unaffiliated_requests st → roles_ok st.
Proof.
  induction 1 as [|st e st' Hreach IH Hok Hstep].
  { intros c room. simpl. by rewrite lookup_empty. }
  pose proof (affiliation_ok_reachable _ Hreach) as HA.
  assert (Hfree : ∀ ws c room x, roomCode (socket st ws) = None →
            rooms st !! c = Some room → refers room x → x ≠ ws).
  { intros ws c room x Hnone Hr Href ->.
    specialize (HA _ _ _ Hr Href). congruence. }
  destruct (step_cases _ _ _ Hstep)
    as [(ws & -> & Hfresh & ->)|[(ws & data & rands & -> & _ & Hm)|(ws & -> & ->)]].
  - apply (roles_ok_frame st); [done| |done].
    intros x. unfold socket. simpl.
    destruct (decide (x = ws)) as [->|Hne].
    + by rewrite lookup_insert_eq, Hfresh.
    + by rewrite lookup_insert_ne.
  - simpl in Hok.
    destruct (onMessage_request_cases _ _ _ _ _ Hm)
      as [->|[[Hreq Hc]|[[Hreq [v ->]]|[[message ->]| ->]]]].
    + done.
    + specialize (Hok Hreq).
      destruct (create_cases _ _ _ _ Hc) as (c0 & _ & Er & Es & _).
      intros c room. rewrite Er. unfold socket. rewrite Es.
      intros [[<- <-]|[Hne Hr]]%lookup_insert_Some; simpl.
      * rewrite lookup_insert_eq. done.
      * destruct (IH _ _ Hr) as [Ih Ip]. split.
        -- rewrite lookup_insert_ne; [done|].
           symmetry. eapply Hfree; [done|done|by left].
        -- intros p Hpp. rewrite lookup_insert_ne; [by apply Ip|].
           symmetry. eapply Hfree; [done|done|]. right. by left.
    + specialize (Hok Hreq).
      destruct (join_cases ws v st)
        as [[m E]|(c0 & room0 & _ & Hr0 & Hp0 & Er & Es)].
      * rewrite E. by apply (roles_ok_frame st).
      * intros c room. rewrite Er. unfold socket. rewrite Es.
        intros [[<- <-]|[Hne Hr]]%lookup_insert_Some; simpl.
        -- destruct (IH _ _ Hr0) as [Ih _]. split.
           ++ rewrite lookup_insert_ne; [done|].
              symmetry. eapply Hfree; [done|done|by left].
           ++ intros p [= <-]. by rewrite lookup_insert_eq.
        -- destruct (IH _ _ Hr) as [Ih Ip]. split.
           ++ rewrite lookup_insert_ne; [done|].
              symmetry. eapply Hfree; [done|done|by left].
           ++ intros p Hpp. rewrite lookup_insert_ne; [by apply Ip|].
              symmetry. eapply Hfree; [done|done|]. right. by left.
    + destruct (forward_cases ws message st) as [Er Es].
      apply (roles_ok_frame st); [done| |done].
      intros x. unfold socket. by rewrite Es.
    + by apply roles_ok_leave.
  - unfold onClose. apply roles_ok_leave.
    + apply (affiliation_ok_frame st); [done| |done].
      intros x. apply roomCode_setReadyState.
    + apply (roles_ok_frame st); [done| |done].
      intros x. apply role_setReadyState.
Qed.

(** X14.  When clients ask for a room only while unaffiliated, the role
    recorded on a connection is its place in its room; so a relay from the
    host reaches an open peer stamped ['host'], and a relay from the peer
    reaches an open host stamped ['peer']. *)
Theorem relayed_role_is_the_senders_place st c room p message :
  reachable_by unaffiliated_requests st →
  rooms st !! c = Some room → peer room = Some p →
  (readyState (socket st p) = OPEN →
     forwardToPeer (host room) message st =
       send p (assign "senderRole" (JStr "host") message) st) ∧
  (readyState (socket st (host room)) = OPEN →
     forwardToPeer p message st =
       send (host room) (assign "senderRole" (JStr "peer") message) st).
Proof.
  intros Hreach Hr Hp.
  pose proof (affiliation_ok_reachable _ Hreach) as HA.
  destruct (roles_ok_reachable _ Hreach _ _ Hr) as [Rh Rp].
  specialize (Rp _ Hp).
  assert (Hch : roomCode (socket st (host room)) = Some c)
    by (eapply HA; [done|by left]).
  assert (Hcp : roomCode (socket st p) = Some c)
    by (eapply HA; [done|right; by left]).
  assert (Hne : p ≠ host room) by congruence.
  split; intros Hopen; unfold forwardToPeer.
  - rewrite Hch, Hr, decide_True, Hp by done.
    by rewrite (proj2 (isOpen_true _ _) Hopen), Rh.
  - rewrite Hcp, Hr, decide_False by done.
    by rewrite (proj2 (isOpen_true _ _) Hopen), Rp.
Qed.

Lemma two_party_follows_protocol :
  reachable_by unaffiliated_requests (after two_party).
Proof.
  apply (run_reachable_by _ two_party init); [constructor| |apply two_party_runs].
  vm_compute. split_and!; try done; intros _; reflexivity.
Qed.

Lemma relayed_role_place_witness :
  let room := {| host := 0; peer := Some 1; users := {[0; 1]} |} in
  (readyState (socket (after two_party) 1) = OPEN →
     forwardToPeer (host room) offerMsg (after two_party) =
       send 1 (assign "senderRole" (JStr "host") offerMsg) (after two_party)) ∧
  (readyState (socket (after two_party) (host room)) = OPEN →
     forwardToPeer 1 offerMsg (after two_party) =
       send (host room) (assign "senderRole" (JStr "peer") offerMsg)
         (after two_party)).
Proof.
  refine (relayed_role_is_the_senders_place (after two_party) "ABC123"
            {| host := 0; peer := Some 1; users := {[0; 1]} |} 1 offerMsg
            _ _ _).
  - apply two_party_follows_protocol.
  - vm_compute. reflexivity.
  - reflexivity.
Defined.

(** ** Requests in sequence *)

Lemma join_success st ws c room :
  rooms st !! c = Some room → peer room = None →
  rooms (handleJoinRoom ws (Some (JStr c)) st) =
    <[c := {| host := host room; peer := Some ws;
              users := {[ws]} ∪ users room |}]> (rooms st) ∧
  roomCode (socket (handleJoinRoom ws (Some (JStr c)) st) ws) = Some c.
Proof.
  intros Hr Hp.
  destruct (join_cases ws (Some (JStr c)) st)
    as [[m E]|(c0 & room0 & [= <-] & Hr0 & _ & Er & Es)].
  - exfalso. revert E. unfold handleJoinRoom, roomsGet. rewrite Hr, Hp.
    case_match; intros E; apply (f_equal rooms) in E; simpl in E;
      apply (f_equal (λ m, peer <$> m !! c)) in E;
      rewrite lookup_insert_eq, Hr in E; simpl in E; congruence.
  - assert (room0 = room) as -> by congruence. split; [done|].
    unfold socket. by rewrite Es, lookup_insert_eq.
Qed.

(** X15.  Joining and then leaving restores the registry: in a reachable
    state, when a connection other than the host joins a room that has no
    peer and then leaves, the registry is what it was before the join, and
    the connection's [roomCode] and [role] are null. *)
Theorem join_then_leave_restores_registry st ws c room :
  reachable st → rooms st !! c = Some room → c ≠ "" →
  peer room = None → host room ≠ ws →
  let st1 := handleJoinRoom ws (Some (JStr c)) st in
  let st2 := handleLeaveRoom ws st1 in
  rooms st2 = rooms st ∧
  roomCode (socket st2 ws) = None ∧ role (socket st2 ws) = None.
Proof.
  intros Hreach Hr Hne Hp Hh st1 st2.
  destruct (join_success st ws c room Hr Hp) as [Er Ec]. fold st1 in Er, Ec.
  destruct (members_ok_reachable _ Hreach _ _ Hr) as [Hin _].
  pose proof (shape_ok_reachable _ Hreach _ _ Hr) as Hshape.
  unfold peerSet in Hshape. rewrite Hp in Hshape.
  set (room1 := {| host := host room; peer := Some ws;
                   users := {[ws]} ∪ users room |}).
  assert (Hr1 : rooms st1 !! c = Some room1)
    by (rewrite Er; apply lookup_insert_eq).
  split.
  - unfold st2. rewrite (leave_nonhost_keeps ws c room1 st1); try done;
      [|simpl; set_solver].
    simpl. rewrite decide_True by done. rewrite Er, insert_insert_eq.
    apply insert_id. rewrite Hr. f_equal. destruct room as [h p u].
    simpl in *. subst p. f_equal. set_solver.
  - by apply (leave_found_clears ws c room1 st1).
Qed.

Lemma join_then_leave_witness :
  let st := after host_waiting in
  let st1 := handleJoinRoom 1 (Some (JStr "ABC123")) st in
  let st2 := handleLeaveRoom 1 st1 in
  rooms st2 = rooms st ∧
  roomCode (socket st2 1) = None ∧ role (socket st2 1) = None.
Proof.
  refine (join_then_leave_restores_registry (after host_waiting) 1 "ABC123"
            {| host := 0; peer := None; users := {[0]} |} _ _ _ _ _).
  - apply host_waiting_reachable.
  - vm_compute. reflexivity.
  - discriminate.
  - reflexivity.
  - discriminate.
Defined.

(** X16.  Creating and then leaving restores the registry: when the
    connection that has just created a room, under a code that is not the
    empty string, leaves before anybody joined, the registry is what it was
    before the creation and the connection's [roomCode] and [role] are
    null. *)
Theorem create_then_leave_restores_registry ws rands st st1 :
  handleCreateRoom ws rands st = Some st1 →
  roomCode (socket st1 ws) ≠ Some "" →
  rooms (handleLeaveRoom ws st1) = rooms st ∧
  roomCode (socket (handleLeaveRoom ws st1) ws) = None ∧
  role (socket (handleLeaveRoom ws st1) ws) = None.
Proof.
  intros Hc Hne.
  destruct (create_cases _ _ _ _ Hc) as (c & Ha & Er & Es & _).
  destruct (allocate_Some _ _ _ Ha) as [Hfresh _].
  assert (Hcode : roomCode (socket st1 ws) = Some c)
    by (unfold socket; by rewrite Es, lookup_insert_eq).
  assert (Hc0 : c ≠ "") by congruence.
  assert (Hr1 : rooms st1 !! c
                = Some {| host := ws; peer := None; users := {[ws]} |})
    by (rewrite Er; apply lookup_insert_eq).
  split.
  - rewrite (leave_host_deletes ws c _ st1 Hcode Hc0 Hr1) by done.
    by rewrite Er, delete_insert_eq, delete_id.
  - by eapply leave_found_clears.
Qed.

Lemma create_then_leave_witness :
  rooms (handleLeaveRoom 0 (after host_waiting))
    = rooms (after [Connection 0; Connection 1]) ∧
  roomCode (socket (handleLeaveRoom 0 (after host_waiting)) 0) = None ∧
  role (socket (handleLeaveRoom 0 (after host_waiting)) 0) = None.
Proof.
  refine (create_then_leave_restores_registry 0 ["0.abc123xyz"]
            (after [Connection 0; Connection 1]) (after host_waiting) _ _).
  - vm_compute. reflexivity.
  - discriminate.
Defined.

(** X17.  The code in the ['room-created'] reply is accepted by
    [join-room]: after a creation, a join that supplies the code recorded
    on the creator attaches the requester as peer of the creator's room.
    The requester may be the creator itself, which is then host and peer of
    its own room. *)
Theorem created_code_can_be_joined ws rands st st1 ws2 :
  handleCreateRoom ws rands st = Some st1 →
  ∃ c, roomCode (socket st1 ws) = Some c ∧
    Send ws (roomCreated c) ∈ appended st st1 ∧
    rooms (handleJoinRoom ws2 (Some (JStr c)) st1) !! c =
      Some {| host := ws; peer := Some ws2; users := {[ws2]} ∪ {[ws]} |}.
Proof.
  intros Hc.
  destruct (create_cases _ _ _ _ Hc) as (c & _ & Er & Es & Ht).
  exists c. split_and!.
  - unfold socket. by rewrite Es, lookup_insert_eq.
  - rewrite (appended_app _ _ _ Ht). set_solver.
  - assert (Hr1 : rooms st1 !! c
                  = Some {| host := ws; peer := None; users := {[ws]} |})
      by (rewrite Er; apply lookup_insert_eq).
    destruct (join_success st1 ws2 c _ Hr1 eq_refl) as [-> _].
    by rewrite lookup_insert_eq.
Qed.

Lemma created_code_witness :
  ∃ c, roomCode (socket (after host_waiting) 0) = Some c ∧
    Send 0 (roomCreated c)
      ∈ appended (after [Connection 0; Connection 1]) (after host_waiting) ∧
    rooms (handleJoinRoom 0 (Some (JStr c)) (after host_waiting)) !! c =
      Some {| host := 0; peer := Some 0; users := {[0]} ∪ {[0]} |}.
Proof.
  apply (created_code_can_be_joined 0 ["0.abc123xyz"]
           (after [Connection 0; Connection 1]) (after host_waiting) 0).
  vm_compute. reflexivity.
Defined.



(** X19.  A room whose peer has left can be joined again: in a reachable
    state, after the peer of a room, a connection other than the host, has
    left by a [leave-room] message or by closing, a [join-room] for the
    room's code from any connection attaches that connection as the new
    peer. *)
Theorem room_can_be_joined_after_peer_left st ws c room st1 ws2 :
  reachable st →
  roomCode (socket st ws) = Some c → c ≠ "" →
  rooms st !! c = Some room →
  peer room = Some ws → host room ≠ ws →
  departure ws st st1 →
  rooms (handleJoinRoom ws2 (Some (JStr c)) st1) !! c =
    Some {| host := host room; peer := Some ws2;
            users := {[ws2]} ∪ (users room ∖ {[ws]}) |}.
Proof.
  intros Hreach Hc Hne Hr Hp Hh Hdep.
  destruct (members_ok_reachable _ Hreach _ _ Hr) as [Hin _].
  destruct (departure_from _ _ _ Hdep) as (st0 & -> & Er & _ & Ec & _ & _).
  assert (Hr1 : rooms (handleLeaveRoom ws st0) !! c =
                Some {| host := host room; peer := None;
                        users := users room ∖ {[ws]} |}).
  { rewrite (leave_nonhost_keeps ws c room st0); try done;
      [|by rewrite Ec|by rewrite Er].
    rewrite lookup_insert_eq. by rewrite decide_True. }
  destruct (join_success _ ws2 c _ Hr1 eq_refl) as [-> _].
  by rewrite lookup_insert_eq.
Qed.

Lemma room_rejoin_witness :
  rooms (handleJoinRoom 2 (Some (JStr "ABC123"))
           (onClose 1 (after two_party))) !! "ABC123" =
    Some {| host := host {| host := 0; peer := Some 1; users := {[0; 1]} |};
            peer := Some 2;
            users := {[2]} ∪ (users {| host := 0; peer := Some 1;
                                       users := {[0; 1]} |} ∖ {[1]}) |}.
Proof.
  refine (room_can_be_joined_after_peer_left (after two_party) 1 "ABC123"
            {| host := 0; peer := Some 1; users := {[0; 1]} |}
            (onClose 1 (after two_party)) 2 _ _ _ _ _ _ _).
  - apply two_party_reachable.
  - reflexivity.
  - discriminate.
  - vm_compute. reflexivity.
  - reflexivity.
  - discriminate.
  - apply disconnect.
Defined.

(** ** Closing *)

(** X20.  When clients ask for a room only while unaffiliated and no room
    is stored under the empty code, a connection that has closed is
    forgotten: after its close event no room of the registry has it as
    host, as peer or in its member set. *)
Theorem closed_connection_is_forgotten st ws c room :
  reachable_by unaffiliated_requests st →
  rooms st !! "" = None →
  rooms (onClose ws st) !! c = Some room →
  ¬ refers room ws.
Proof.
  intros Hreach Hempty Hr Href. unfold onClose in Hr.
  set (st0 := setReadyState ws CLOSED st) in *.
  assert (HA : affiliation_ok st0).
  { apply (affiliation_ok_frame st); [done| |by apply affiliation_ok_reachable].
    intros x. apply roomCode_setReadyState. }
  destruct (leave_exits ws st0) as [[E Hgone]|(c0 & room0 & Hc0 & Hne0 & Hr0)].
  - rewrite E in Hr. pose proof (HA _ _ _ Hr Href) as Hc.
    assert (c ≠ "") by (intros ->; simpl in Hr; congruence).
    specialize (Hgone _ Hc). naive_solver.
  - destruct (leave_cases ws st0)
      as [E|(c1 & room1 & Hc1 & _ & Hr1 & _ & Hrooms)].
    + destruct (leave_found_clears ws c0 room0 st0 Hc0 Hne0 Hr0) as [Hnone _].
      rewrite E in Hnone. congruence.
    + assert (c1 = c0) as -> by congruence.
      destruct Hrooms as [E|[Hh E]]; rewrite E in Hr.
      * apply lookup_delete_Some in Hr as [Hcc Hr].
        pose proof (HA _ _ _ Hr Href). congruence.
      * apply lookup_insert_Some in Hr as [[<- <-]|[Hcc Hr]].
        -- destruct Href as [H|[H|H]]; simpl in H.
           ++ done.
           ++ by case_decide.
           ++ set_solver.
        -- pose proof (HA _ _ _ Hr Href). congruence.
Qed.

Lemma closed_connection_witness :
  ¬ refers {| host := 0; peer := None; users := {[0]} |} 1.
Proof.
  refine (closed_connection_is_forgotten (after two_party) 1 "ABC123"
            {| host := 0; peer := None; users := {[0]} |} _ _ _).
  - apply two_party_follows_protocol.
  - vm_compute. reflexivity.
  - vm_compute. reflexivity.
Defined.

(** ** Relay leaves the state alone *)

(** X21.  A relay changes neither the registry nor any connection record;
    it appends at most one message; it is dropped when the sender's
    [roomCode] is null or names no room; and the message never goes back to
    its sender, unless the sender is both the host and the peer of its
    room. *)
Theorem relay_only_appends_one_message ws message st :
  rooms (forwardToPeer ws message st) = rooms st ∧
  sockets (forwardToPeer ws message st) = sockets st ∧
  (roomCode (socket st ws) = None → forwardToPeer ws message st = st) ∧
  (∀ c, roomCode (socket st ws) = Some c → rooms st !! c = None →
        forwardToPeer ws message st = st) ∧
  ∃ l, trace (forwardToPeer ws message st) = (trace st ++ l)%list ∧
    (length l ≤ 1)%nat ∧
    ∀ to msg, Send to msg ∈ l → to = ws →
      ∃ c room, rooms st !! c = Some room ∧
        host room = ws ∧ peer room = Some ws.
Proof.
  destruct (forward_cases ws message st) as [Er Es].
  split_and!; [done|done| | |].
  - intros H. unfold forwardToPeer. by rewrite H.
  - intros c H1 H2. unfold forwardToPeer. by rewrite H1, H2.
  - unfold forwardToPeer.
    destruct (roomCode (socket st ws)) as [c|] eqn:Hc;
      [|exists []; rewrite app_nil_r; split_and!; [done|simpl; lia|];
        intros to msg Hin; by apply elem_of_nil in Hin].
    destruct (rooms st !! c) as [room|] eqn:Hr;
      [|exists []; rewrite app_nil_r; split_and!; [done|simpl; lia|];
        intros to msg Hin; by apply elem_of_nil in Hin].
    destruct (if decide (ws = host room) then peer room else Some (host room))
      as [t|] eqn:Ht;
      [|exists []; rewrite app_nil_r; split_and!; [done|simpl; lia|];
        intros to msg Hin; by apply elem_of_nil in Hin].
    destruct (isOpen st t);
      [|exists []; rewrite app_nil_r; split_and!; [done|simpl; lia|];
        intros to msg Hin; by apply elem_of_nil in Hin].
    eexists. split_and!; [done|simpl; lia|].
    intros to msg Hin Hto. apply list_elem_of_singleton in Hin.
    simplify_eq. exists c, room. case_decide; simplify_eq; eauto.
Qed.

(** ** A close is a leave *)

Lemma sentTo_app x l1 l2 :
  sentTo x (l1 ++ l2) = (sentTo x l1 ++ sentTo x l2)%list.
Proof.
  induction l1 as [|[to msg|c|c] l1 IH]; simpl; [done| | |]; try done.
  case_decide; simpl; by rewrite IH.
Qed.

(** The leave logic for a room found, in closed form. *)
Lemma leave_found_effects ws c room st :
  roomCode (socket st ws) = Some c → c ≠ "" → rooms st !! c = Some room →
  rooms (handleLeaveRoom ws st) = leaveRooms (rooms st) ws c room ∧
  sockets (handleLeaveRoom ws st) =
    <[ws := {| roomCode := None; role := None;
               readyState := readyState (socket st ws) |}]> (sockets st) ∧
  trace (handleLeaveRoom ws st) =
    (trace st ++ leaveNotices st ws room ++
     (if decide (size (users room ∖ {[ws]}) = 0) then [RoomsDelete c]
      else if decide (ws = host room) then [RoomsDelete c] else []))%list.
Proof.
  intros Hc Hne Hr. unfold handleLeaveRoom, leaveRooms, leaveNotices.
  rewrite Hc, Hr. destruct (decide (c = "")) as [|_]; [done|]. simpl users.
  destruct (decide (ws = host room)) as [Hh|Hh];
    destruct (peer room) as [p|] eqn:Hp;
    destruct (decide (size (users room ∖ {[ws]}) = 0));
    repeat match goal with
           | |- context [isOpen ?s ?o] =>
               change (isOpen s o) with (isOpen st o);
               destruct (isOpen st o) eqn:?
           end;
    repeat case_decide; simplify_eq; simpl;
    rewrite ?delete_insert_eq, ?insert_insert_eq;
    (split_and!; [done|done|]);
    rewrite <- ?app_assoc; simpl; by rewrite ?app_nil_r.
Qed.

Lemma isOpen_setReadyState_ne ws x s st :
  x ≠ ws → isOpen (setReadyState ws s st) x = isOpen st x.
Proof. intros Hne. unfold isOpen. by rewrite socket_setReadyState_ne. Qed.

Lemma leaveNotices_closed ws room st x :
  x ≠ ws →
  sentTo x (leaveNotices (setReadyState ws CLOSED st) ws room) =
  sentTo x (leaveNotices st ws room).
Proof.
  intros Hne. unfold leaveNotices. rewrite !sentTo_app. f_equal.
  - destruct (if decide (ws = host room) then peer room else Some (host room))
      as [o|]; [|done].
    destruct (decide (o = ws)) as [->|Ho].
    + repeat case_match; simpl; by rewrite ?decide_False by done.
    + by rewrite isOpen_setReadyState_ne, role_setReadyState.
  - repeat case_decide; try done.
    destruct (peer room) as [p|]; [|done].
    destruct (decide (p = ws)) as [->|Hp].
    + repeat case_match; simpl; by rewrite ?decide_False by done.
    + by rewrite isOpen_setReadyState_ne.
Qed.

(** X22.  A close event has the effect of a [leave-room] message: the
    registry afterwards is the same, every connection has the same
    [roomCode] and [role], and every connection other than the one that
    left has been sent the same messages. *)
Theorem close_acts_like_leave_room ws st :
  rooms (onClose ws st) = rooms (handleLeaveRoom ws st) ∧
  (∀ x, roomCode (socket (onClose ws st) x)
          = roomCode (socket (handleLeaveRoom ws st) x) ∧
        role (socket (onClose ws st) x)
          = role (socket (handleLeaveRoom ws st) x)) ∧
  (∀ x, x ≠ ws →
     sentTo x (trace (onClose ws st))
       = sentTo x (trace (handleLeaveRoom ws st))).
Proof.
  unfold onClose. set (st0 := setReadyState ws CLOSED st).
  assert (Hc0 : roomCode (socket st0 ws) = roomCode (socket st ws))
    by apply roomCode_setReadyState.
  destruct (leave_exits ws st) as [[E Hgone]|(c & room & Hc & Hne & Hr)].
  - assert (E0 : handleLeaveRoom ws st0 = st0).
    { destruct (roomCode (socket st ws)) as [c|] eqn:Hc.
      - destruct (decide (c = "")) as [->|Hne].
        + by apply leave_empty_code.
        + apply (leave_room_gone _ c); [done|]. by apply Hgone.
      - by apply leave_unaffiliated. }
    rewrite E, E0. split_and!; [done| |done].
    intros x. split; [apply roomCode_setReadyState|apply role_setReadyState].
  - destruct (leave_found_effects ws c room st Hc Hne Hr) as (Er & Es & Et).
    destruct (leave_found_effects ws c room st0) as (Er0 & Es0 & Et0);
      [by rewrite Hc0|done|done|].
    split_and!.
    + by rewrite Er, Er0.
    + intros x.
      assert (Hs : ∀ s, socket (handleLeaveRoom ws s) x =
                default newSocket (sockets (handleLeaveRoom ws s) !! x))
        by done.
      rewrite !Hs, Es, Es0.
      destruct (decide (x = ws)) as [->|Hx].
      * by rewrite !lookup_insert_eq.
      * rewrite !lookup_insert_ne by done.
        change (default newSocket (sockets st0 !! x)) with (socket st0 x).
        change (default newSocket (sockets st !! x)) with (socket st x).
        split; [apply roomCode_setReadyState|apply role_setReadyState].
    + intros x Hx. rewrite Et, Et0, !sentTo_app.
      unfold st0. by rewrite leaveNotices_closed.
Qed.

(** ** Connections and the rooms that refer to them *)

(** X23.  When clients ask for a room only while unaffiliated, every
    connection that a room of the registry refers to, as host, as peer or
    in its member set, carries that room's code in its [roomCode]. *)
Theorem members_carry_the_room_code st c room ws :
  reachable_by unaffiliated_requests st →
  rooms st !! c = Some room → refers room ws →
  roomCode (socket st ws) = Some c.
Proof.
  intros Hreach Hr Href. by eapply affiliation_ok_reachable.
Qed.

Lemma members_carry_the_room_code_witness :
  roomCode (socket (after two_party) 1) = Some "ABC123".
Proof.
  refine (members_carry_the_room_code (after two_party) "ABC123"
            {| host := 0; peer := Some 1; users := {[0; 1]} |} 1 _ _ _).
  - apply two_party_follows_protocol.
  - vm_compute. reflexivity.
  - right. by left.
Defined.

(** X24.  A connection whose [roomCode] names a room of which it is
    neither host nor peer nor member, as happens when the code of a deleted
    room is drawn again, still runs the leave logic on that room when it
    leaves: the open host is sent one ['peer-left'] notification, the
    registry stays as it is, and the leaving connection's [roomCode] and
    [role] become null. *)
Theorem outsider_departure_notifies_the_host st ws c room st' :
  roomCode (socket st ws) = Some c → c ≠ "" →
  rooms st !! c = Some room →
  host room ≠ ws → peer room ≠ Some ws → ws ∉ users room →
  host room ∈ users room →
  readyState (socket st (host room)) = OPEN →
  departure ws st st' →
  rooms st' = rooms st ∧
  appended st st' =
    [Send (host room) (peerLeft (role (socket st (host room))))] ∧
  roomCode (socket st' ws) = None ∧ role (socket st' ws) = None.
Proof.
  intros Hc Hne Hr Hh Hp Hout Hin Hopen Hdep.
  destruct (departure_from _ _ _ Hdep) as (st0 & -> & Er & Et & Ec & Eo & Es).
  assert (Hc0 : roomCode (socket st0 ws) = Some c) by by rewrite Ec.
  assert (Hr0 : rooms st0 !! c = Some room) by by rewrite Er.
  destruct (leave_found_effects ws c room st0 Hc0 Hne Hr0) as (Er1 & _ & Et1).
  assert (Hsize : size (users room ∖ {[ws]}) ≠ 0).
  { intros Hz. apply size_empty_iff in Hz. set_solver. }
  split_and!.
  - rewrite Er1. unfold leaveRooms.
    rewrite decide_False by done. rewrite decide_False by congruence.
    rewrite decide_False by done. rewrite Er. apply insert_id.
    rewrite Hr. f_equal. destruct room as [h p u]. simpl in *. f_equal.
    set_solver.
  - apply appended_app. rewrite Et1, Et. f_equal. unfold leaveNotices.
    assert (isOpen st0 (host room) = true) as Ho.
    { apply isOpen_true. by rewrite Es. }
    repeat case_decide; try done; try congruence.
    rewrite Ho, Eo. done.
  - by apply (leave_found_clears ws c room st0).
  - by apply (leave_found_clears ws c room st0).
Qed.

Lemma code_reused_runs : run code_reused init = Some (after code_reused).
Proof. vm_compute. reflexivity. Qed.

Lemma outsider_departure_witness :
  let st := after code_reused in
  let room := {| host := 2; peer := None; users := {[2]} |} in
  rooms (onClose 1 st) = rooms st ∧
  appended st (onClose 1 st) =
    [Send (host room) (peerLeft (role (socket st (host room))))] ∧
  roomCode (socket (onClose 1 st) 1) = None ∧
  role (socket (onClose 1 st) 1) = None.
Proof.
  refine (outsider_departure_notifies_the_host (after code_reused) 1 "ABC123"
            {| host := 2; peer := None; users := {[2]} |}
            (onClose 1 (after code_reused)) _ _ _ _ _ _ _ _ _).
  - reflexivity.
  - discriminate.
  - vm_compute. reflexivity.
  - discriminate.
  - discriminate.
  - vm_compute. set_solver.
  - vm_compute. set_solver.
  - reflexivity.
  - apply disconnect.
Defined.
